(** * mini-search-engine: tokenizer, inverted index, TF-IDF ranker, query engine

    A shallow embedding of [preprocessor.py], [indexer.py], [ranker.py] and
    [search_engine.py], followed by the properties of the specification that
    were checked against it.

    Modelling conventions.
    - A Python [str] is a [string]; its characters are the code points
      U+0000..U+00FF.
    - A Python [dict] is an association list in insertion order (Python
      dictionaries iterate in insertion order, and the ranker's stable sort
      makes that order observable).
    - Python floats are kept behind the interface [FloatOps]; the real numbers
      are one instance. *)

From Stdlib Require Import List String Ascii Arith Bool Lia ZArith.
From Stdlib Require DecimalString Decimal DecimalNat.
From Stdlib Require Import Sorted Permutation.
From Stdlib Require Import Reals Lra.
Import ListNotations.
Open Scope string_scope.
Open Scope list_scope.
Open Scope nat_scope.

(** ** Python strings *)

Module PyStr.

(** [str.isspace] on one character, for code points below 256. *)
Definition is_space (c : ascii) : bool :=
  let n := nat_of_ascii c in
  ((9 <=? n) && (n <=? 13)) || ((28 <=? n) && (n <=? 32))
  || (n =? 133) || (n =? 160).

Definition is_lower (c : ascii) : bool :=
  let n := nat_of_ascii c in (97 <=? n) && (n <=? 122).

Definition is_digit (c : ascii) : bool :=
  let n := nat_of_ascii c in (48 <=? n) && (n <=? 57).

(** The character class [[a-z0-9]]. *)
Definition is_alnum (c : ascii) : bool := is_lower c || is_digit c.

(** [str.lower] on one character: A-Z, and the Latin-1 capitals
    U+00C0..U+00DE except the multiplication sign U+00D7. *)
Definition lower_char (c : ascii) : ascii :=
  let n := nat_of_ascii c in
  if ((65 <=? n) && (n <=? 90))
     || ((192 <=? n) && (n <=? 222) && negb (n =? 215))
  then ascii_of_nat (n + 32) else c.

Fixpoint map_chars (f : ascii -> ascii) (s : string) : string :=
  match s with
  | EmptyString => EmptyString
  | String c r => String (f c) (map_chars f r)
  end.

Fixpoint forallb_chars (p : ascii -> bool) (s : string) : bool :=
  match s with
  | EmptyString => true
  | String c r => p c && forallb_chars p r
  end.

Definition lower (s : string) : string := map_chars lower_char s.

(** [s.endswith(suf)] *)
Definition endswith (s suf : string) : bool :=
  (String.length suf <=? String.length s)
  && String.eqb (substring (String.length s - String.length suf)
                           (String.length suf) s) suf.

(** [s[:n]] for [0 <= n]. *)
Definition take (n : nat) (s : string) : string := substring 0 n s.

(** [s.lstrip()], [s.rstrip()] and [s.strip()] with no argument. *)
Fixpoint lstrip (s : string) : string :=
  match s with
  | EmptyString => EmptyString
  | String c r => if is_space c then lstrip r else s
  end.

Fixpoint rstrip (s : string) : string :=
  match s with
  | EmptyString => EmptyString
  | String c r =>
      match rstrip r with
      | EmptyString => if is_space c then EmptyString else String c EmptyString
      | r' => String c r'
      end
  end.

Definition strip (s : string) : string := rstrip (lstrip s).

(** [s.split()] with no argument: the maximal runs of non-whitespace
    characters, left to right. [cur] is the run being read, reversed. *)
Fixpoint split_aux (cur : list ascii) (s : string) : list string :=
  match s with
  | EmptyString =>
      match cur with
      | [] => []
      | _ => [string_of_list_ascii (List.rev cur)]
      end
  | String c r =>
      if is_space c then
        match cur with
        | [] => split_aux [] r
        | _ => string_of_list_ascii (List.rev cur) :: split_aux [] r
        end
      else split_aux (c :: cur) r
  end.

Definition split (s : string) : list string := split_aux [] s.

(** [x in xs] for a collection of strings. *)
Definition mem (x : string) (xs : list string) : bool :=
  existsb (String.eqb x) xs.

(** [str(i)] for a natural number. *)
Definition of_nat (i : nat) : string :=
  DecimalString.NilEmpty.string_of_uint (Nat.to_uint i).

End PyStr.

(** ** preprocessor.py *)

Module Preprocessor.
Import PyStr.

Definition STOP_WORDS : list string :=
  [ "a"; "an"; "the"; "and"; "or"; "but"; "if"; "in"; "on"; "at"; "to";
    "for"; "of"; "with"; "by"; "from"; "is"; "it"; "its"; "be"; "was";
    "are"; "were"; "been"; "has"; "have"; "had"; "do"; "does"; "did";
    "will"; "would"; "could"; "should"; "may"; "might"; "shall"; "can";
    "not"; "no"; "nor"; "so"; "yet"; "both"; "either"; "neither"; "as";
    "up"; "out"; "about"; "into"; "than"; "then"; "that"; "this"; "these";
    "those"; "which"; "who"; "whom"; "what"; "when"; "where"; "why"; "how";
    "all"; "each"; "every"; "any"; "some"; "such"; "more"; "most"; "also";
    "over"; "under"; "again"; "further"; "once"; "here"; "there"; "just";
    "too"; "very"; "own"; "same"; "other"; "only"; "even"; "after";
    "before"; "during"; "while"; "because"; "although"; "though"; "since";
    "until"; "unless"; "between"; "through"; "i"; "me"; "my"; "we"; "our";
    "you"; "your"; "he"; "him"; "his"; "she"; "her"; "they"; "them";
    "their"; "us"; "s"; "t" ].

(** The rule table of [_stem], in source order. *)
Definition suffixes : list (string * string) :=
  [ ("ational", "ate");
    ("tional",  "tion");
    ("enci",    "ence");
    ("anci",    "ance");
    ("izer",    "ize");
    ("ising",   "ise");
    ("izing",   "ize");
    ("nesses",  "ness");
    ("ness",    "");
    ("ments",   "ment");
    ("ment",    "");
    ("ings",    "ing");
    ("ing",     "");
    ("edly",    "");
    ("ingly",   "");
    ("ies",     "y");
    ("ied",     "y");
    ("sses",    "ss");
    ("tions",   "te");
    ("tion",    "te");
    ("ers",     "er");
    ("ly",      "");
    ("ed",      "");
    ("er",      "");
    ("es",      "");
    ("s",       "") ].

(** [word[: len(word) - len(suffix)] + replacement] *)
Definition apply_rule (word suffix replacement : string) : string :=
  (take (String.length word - String.length suffix) word ++ replacement)%string.

(** The [for suffix, replacement in suffixes] loop of [_stem]: the first
    rule that matches and leaves at least three characters returns; a rule
    that matches but leaves fewer falls through to the next one. *)
Fixpoint stem_loop (rules : list (string * string)) (word : string) : string :=
  match rules with
  | [] => word
  | (suffix, replacement) :: rest =>
      if endswith word suffix then
        let stem := apply_rule word suffix replacement in
        if 3 <=? String.length stem then stem else stem_loop rest word
      else stem_loop rest word
  end.

Definition _stem (word : string) : string :=
  if String.length word <=? 3 then word else stem_loop suffixes word.

(** A rule applies to a word when the word ends with its suffix and the
    rewritten word keeps at least three characters. *)
Definition rule_applies (word : string) (rule : string * string) : bool :=
  endswith word (fst rule)
  && (3 <=? String.length (apply_rule word (fst rule) (snd rule))).

(** The stemmer as the specification words it: short words are returned as
    they are; otherwise the first applicable rule of the table is applied
    once, and a word with no applicable rule is returned as it is. *)
Definition stem_spec (word : string) : string :=
  if String.length word <=? 3 then word
  else match find (rule_applies word) suffixes with
       | Some (suffix, replacement) => apply_rule word suffix replacement
       | None => word
       end.

(** [re.sub(r"[^a-z0-9\s]", " ", text)] *)
Definition sub_non_alnum (text : string) : string :=
  map_chars (fun c => if is_alnum c || is_space c then c else " "%char) text.

(** The filter-and-stem loop of [tokenize]. *)
Fixpoint filter_stem (words : list string) : list string :=
  match words with
  | [] => []
  | word :: rest =>
      if String.length word <? 2 then filter_stem rest
      else if mem word STOP_WORDS then filter_stem rest
      else _stem word :: filter_stem rest
  end.

Definition tokenize (text : string) : list string :=
  match text with
  | EmptyString => []
  | _ => filter_stem (split (sub_non_alnum (lower text)))
  end.

End Preprocessor.

(** ** Python dictionaries with string keys, in insertion order *)

Module Dict.

(** [dict V] abbreviates the type of association lists from strings to [V]. *)
Abbreviation dict V := (list (string * V)) (only parsing).

(** [d.get(k)] *)
Fixpoint get {V : Type} (k : string) (d : dict V) : option V :=
  match d with
  | [] => None
  | (k', v) :: r => if String.eqb k k' then Some v else get k r
  end.

(** [k in d] *)
Definition mem {V : Type} (k : string) (d : dict V) : bool :=
  match get k d with Some _ => true | None => false end.

(** [d[k] = v]: an existing key keeps its place, a new key goes last. *)
Fixpoint set {V : Type} (k : string) (v : V) (d : dict V) : dict V :=
  match d with
  | [] => [(k, v)]
  | (k', v') :: r =>
      if String.eqb k k' then (k, v) :: r else (k', v') :: set k v r
  end.

(** [d.get(k, default)] *)
Definition get_default {V : Type} (k : string) (default : V) (d : dict V) : V :=
  match get k d with Some v => v | None => default end.

Definition keys {V : Type} (d : dict V) : list string := map fst d.

(** Keys of a dictionary are pairwise distinct. *)
Definition wf {V : Type} (d : dict V) : Prop := NoDup (keys d).

End Dict.

(** ** indexer.py *)

Module Indexer.
Import PyStr Dict.

Definition SNIPPET_LENGTH : nat := 200.

(** The truncation mark of [_make_snippet] is U+2026, outside the modelled
    character range; it is written here as its three UTF-8 bytes. *)
Definition ELLIPSIS : string :=
  String (ascii_of_nat 226) (String (ascii_of_nat 128)
    (String (ascii_of_nat 166) EmptyString)).

(** [" ".join(words)] *)
Fixpoint join_space (words : list string) : string :=
  match words with
  | [] => EmptyString
  | [w] => w
  | w :: rest => (w ++ " " ++ join_space rest)%string
  end.

(** [text.rfind(" ", 0, stop)]: the last index below [stop] holding a space,
    [None] for Python's -1. [i] is the index of the head of [text]. *)
Fixpoint rfind_space_from (i stop : nat) (text : string) : option nat :=
  match text with
  | EmptyString => None
  | String c r =>
      if stop <=? i then None
      else match rfind_space_from (S i) stop r with
           | Some j => Some j
           | None => if Ascii.eqb c " " then Some i else None
           end
  end.

Definition _make_snippet (text : string) (length : nat) : string :=
  let text := join_space (split text) in
  if String.length text <=? length then text
  else
    let cut := match rfind_space_from 0 length text with
               | Some i => i
               | None => length
               end in
    (take cut text ++ ELLIPSIS)%string.

(** One entry of [Indexer.documents]. A field is [None] when the key is absent
    from the dictionary, as can happen in an index that was loaded from disk;
    [add_document] always stores all four. *)
Record DocMeta : Type := mkDocMeta {
  meta_title : option string;
  meta_url : option string;
  meta_snippet : option string;
  meta_length : option nat
}.

(** The type aliases of [indexer.py]. *)
Abbreviation Postings := (dict (list nat)) (only parsing).
Abbreviation InvertedIndex := (dict Postings) (only parsing).
Abbreviation Documents := (dict DocMeta) (only parsing).

(** The three attributes of an [Indexer] object. *)
Record Indexer : Type := mkIndexer {
  index : InvertedIndex;
  doc_freq : dict nat;
  documents : Documents
}.

(** [Indexer.__init__] *)
Definition init : Indexer := mkIndexer [] [] [].

(** The state of the token loop of [add_document]: the index, the
    document-frequency table and the local set [seen_in_doc]. *)
Record LoopState : Type := mkLoop {
  l_index : InvertedIndex;
  l_doc_freq : dict nat;
  l_seen : list string
}.

(** One iteration of [for position, token in enumerate(tokens)]. *)
Definition index_token (doc_id : string) (position : nat) (token : string)
    (s : LoopState) : LoopState :=
  (* if token not in self.index: self.index[token] = {} *)
  let idx1 := if mem token (l_index s) then l_index s
              else set token [] (l_index s) in
  let postings := get_default token [] idx1 in
  (* if doc_id not in self.index[token]: self.index[token][doc_id] = [] *)
  let postings1 := if mem doc_id postings then postings
                   else set doc_id [] postings in
  (* self.index[token][doc_id].append(position) *)
  let postings2 :=
    set doc_id (get_default doc_id [] postings1 ++ [position]) postings1 in
  let idx2 := set token postings2 idx1 in
  (* if token not in seen_in_doc: ... *)
  if PyStr.mem token (l_seen s) then mkLoop idx2 (l_doc_freq s) (l_seen s)
  else mkLoop idx2
         (set token (get_default token 0 (l_doc_freq s) + 1) (l_doc_freq s))
         (token :: l_seen s).

Fixpoint index_tokens (doc_id : string) (position : nat) (tokens : list string)
    (s : LoopState) : LoopState :=
  match tokens with
  | [] => s
  | token :: rest =>
      index_tokens doc_id (S position) rest (index_token doc_id position token s)
  end.

Definition add_document (self : Indexer) (doc_id title url text : string)
    : Indexer :=
  let tokens := Preprocessor.tokenize text in
  let snippet := _make_snippet text SNIPPET_LENGTH in
  let documents' :=
    set doc_id
        (mkDocMeta (Some title) (Some url) (Some snippet)
                   (Some (List.length tokens)))
        (documents self) in
  let s := index_tokens doc_id 0 tokens
             (mkLoop (index self) (doc_freq self) []) in
  mkIndexer (l_index s) (l_doc_freq s) documents'.

(** One record of the crawler's output; a field is [None] when the page
    dictionary lacks the key. *)
Record Page : Type := mkPage {
  page_title : option string;
  page_url : option string;
  page_text : option string
}.

Definition doc_id_of (i : nat) : string := ("doc_" ++ of_nat i)%string.

(** [for i, page in enumerate(crawled_pages)], counting from [i]. *)
Fixpoint build_loop (self : Indexer) (i : nat) (crawled_pages : list Page)
    : Indexer :=
  match crawled_pages with
  | [] => self
  | page :: rest =>
      build_loop
        (add_document self (doc_id_of i)
           (match page_title page with Some t => t | None => "Untitled" end)
           (match page_url page with Some u => u | None => "" end)
           (match page_text page with Some x => x | None => "" end))
        (S i) rest
  end.

Definition build_from_crawled_data (self : Indexer) (crawled_pages : list Page)
    : Indexer :=
  build_loop self 0 crawled_pages.

(** *** Reading an index *)

(** [index[term][doc_id]], [None] when either key is absent. *)
Definition positions (idx : InvertedIndex) (term doc_id : string)
    : option (list nat) :=
  match get term idx with
  | Some postings => get doc_id postings
  | None => None
  end.

Definition nonempty {A : Type} (l : list A) : bool :=
  match l with [] => false | _ => true end.

(** The number of distinct doc_ids [d] for which [index[term][d]] is a
    non-empty position list. *)
Definition doc_count (idx : InvertedIndex) (term : string) : nat :=
  List.length
    (nodup string_dec
       (keys (filter (fun e => nonempty (snd e)) (get_default term [] idx)))).

(** [documents[doc_id]["length"]] *)
Definition stored_length (self : Indexer) (doc_id : string) : option nat :=
  match get doc_id (documents self) with
  | Some doc_meta => meta_length doc_meta
  | None => None
  end.

(** Every postings map of the index is a dictionary: its doc_ids are pairwise
    distinct. *)
Definition postings_wf (idx : InvertedIndex) : Prop :=
  forall t P, get t idx = Some P -> wf P.

(** The arguments of one [add_document] call. *)
Record Call : Type := mkCall {
  c_doc_id : string;
  c_title : string;
  c_url : string;
  c_text : string
}.

Definition add_call (self : Indexer) (c : Call) : Indexer :=
  add_document self (c_doc_id c) (c_title c) (c_url c) (c_text c).

(** A sequence of [add_document] calls on one [Indexer] object. *)
Definition add_documents (self : Indexer) (calls : list Call) : Indexer :=
  fold_left add_call calls self.

(** The call that [build_from_crawled_data] makes for the page at index [i]. *)
Definition call_of_page (i : nat) (page : Page) : Call :=
  mkCall (doc_id_of i)
    (match page_title page with Some t => t | None => "Untitled" end)
    (match page_url page with Some u => u | None => "" end)
    (match page_text page with Some x => x | None => "" end).

(** The calls of [build_from_crawled_data] for pages numbered from [i]. *)
Fixpoint calls_from (i : nat) (crawled_pages : list Page) : list Call :=
  match crawled_pages with
  | [] => []
  | page :: rest => call_of_page i page :: calls_from (S i) rest
  end.

End Indexer.

(** ** Floating-point arithmetic used by the ranker

    The operations that [ranker.py] and [search_engine.py] apply to numbers,
    as an interface. Nothing is assumed about rounding. *)

Class FloatOps : Type := mkFloatOps {
  fl : Type;
  (** [a / b] for two [int]s (true division) *)
  truediv : nat -> nat -> fl;
  (** [math.log] *)
  math_log : fl -> fl;
  fadd : fl -> fl -> fl;
  fmul : fl -> fl -> fl;
  (** [0.0] and [1] converted to a float *)
  fzero : fl;
  fone : fl;
  (** [x < y], the only comparison [sorted] performs *)
  fltb : fl -> fl -> bool;
  (** [round(x, 4)] *)
  round4 : fl -> fl
}.

(** [x <= y] read as "not [y < x]". *)
Definition fle `{FloatOps} (x y : fl) : Prop := fltb y x = false.

(** The properties of the comparison on which a sorted result depends: [<] is
    a strict weak order, as it is on floats that are not NaN. *)
Class FloatOrder (F : FloatOps) : Prop := mkFloatOrder {
  fltb_asym : forall x y : fl, fltb x y = true -> fltb y x = false;
  fltb_negtrans : forall x y z : fl,
      fltb x y = false -> fltb y z = false -> fltb x z = false
}.

(** Arithmetic whose operations are monotone, as correctly rounded floating
    point and exact real arithmetic both are. *)
Class FloatMonotone (F : FloatOps) : Prop := mkFloatMonotone {
  fm_order :: FloatOrder F;
  truediv_mono : forall a b d : nat,
      a <= b -> 0 < d -> fle (truediv a d) (truediv b d);
  truediv_ge_one : forall a b : nat,
      0 < b -> b <= a -> fle fone (truediv a b);
  math_log_nonneg : forall x : fl, fle fone x -> fle fzero (math_log x);
  fadd_one_nonneg : forall x : fl, fle fzero x -> fle fzero (fadd x fone);
  fmul_mono : forall a b c : fl,
      fle fzero c -> fle a b -> fle (fmul a c) (fmul b c);
  fadd_zero_mono : forall a b : fl,
      fle a b -> fle (fadd fzero a) (fadd fzero b)
}.

(** ** ranker.py *)

Module Ranker.
Import Dict Indexer.

(** [l[:k]] for an arbitrary integer [k]: a negative [k] counts from the end. *)
Definition slice_to {A : Type} (l : list A) (k : Z) : list A :=
  if (k <? 0)%Z then firstn (List.length l - Z.abs_nat k) l
  else firstn (Z.to_nat k) l.

Section WithFloats.
Context `{F : FloatOps}.

(** [idf = math.log((total_docs + 1) / (df + 1)) + 1] *)
Definition idf_of (total_docs df : nat) : fl :=
  fadd (math_log (truediv (total_docs + 1) (df + 1))) fone.

(** [doc_meta.get("length", 1) or 1] *)
Definition doc_length_of (doc_meta : DocMeta) : nat :=
  match meta_length doc_meta with
  | None => 1
  | Some 0 => 1
  | Some n => n
  end.

(** [tf * idf] for one posting. *)
Definition tfidf_of (idf : fl) (positions : list nat) (doc_meta : DocMeta) : fl :=
  fmul (truediv (List.length positions) (doc_length_of doc_meta)) idf.

(** [for doc_id, positions in index[term].items()] *)
Fixpoint score_postings (documents : Documents) (idf : fl)
    (items : Postings) (scores : dict fl) : dict fl :=
  match items with
  | [] => scores
  | (doc_id, positions) :: rest =>
      match get doc_id documents with
      | None => score_postings documents idf rest scores
      | Some doc_meta =>
          score_postings documents idf rest
            (set doc_id
                 (fadd (get_default doc_id fzero scores)
                       (tfidf_of idf positions doc_meta))
                 scores)
      end
  end.

(** [for term in query_tokens] *)
Fixpoint score_terms (index : InvertedIndex) (doc_freq : dict nat)
    (documents : Documents) (query_tokens : list string) (scores : dict fl)
    : dict fl :=
  match query_tokens with
  | [] => scores
  | term :: rest =>
      if mem term index then
        let df := get_default term 0 doc_freq in
        let idf := idf_of (List.length documents) df in
        score_terms index doc_freq documents rest
          (score_postings documents idf (get_default term [] index) scores)
      else score_terms index doc_freq documents rest scores
  end.

(** [sorted(items, key=lambda x: x[1], reverse=True)]: a stable sort into
    descending order, written as the insertion sort that only ever asks
    [x < y]. Items with equal keys keep their order. *)
Fixpoint insert_desc (x : string * fl) (l : list (string * fl))
    : list (string * fl) :=
  match l with
  | [] => [x]
  | y :: r => if fltb (snd x) (snd y) then y :: insert_desc x r else x :: l
  end.

Definition sorted_desc (l : list (string * fl)) : list (string * fl) :=
  fold_right insert_desc [] l.

Definition compute_tfidf_scores (query_tokens : list string)
    (index : InvertedIndex) (doc_freq : dict nat) (documents : Documents)
    (top_k : Z) : list (string * fl) :=
  let scores := score_terms index doc_freq documents query_tokens [] in
  let ranked := sorted_desc scores in
  slice_to ranked top_k.

End WithFloats.
End Ranker.

(** ** search_engine.py *)

Module SearchEngine.
Import PyStr Dict Indexer Ranker.

Section WithFloats.
Context `{F : FloatOps}.

(** One element of the list returned by [search]. *)
Record Result : Type := mkResult {
  r_doc_id : string;
  r_title : string;
  r_url : string;
  r_snippet : string;
  r_score : fl
}.

(** Step 3 of [search] for one ranked pair; a missing document entry stands
    for the empty dictionary of [documents.get(doc_id, {})]. *)
Definition enrich (documents : Documents) (p : string * fl) : Result :=
  let (doc_id, score) := p in
  let meta := get_default doc_id (mkDocMeta None None None None) documents in
  mkResult doc_id
    (match meta_title meta with Some t => t | None => "Untitled" end)
    (match meta_url meta with Some u => u | None => "#" end)
    (match meta_snippet meta with Some x => x | None => "" end)
    (round4 score).

(** [SearchEngine.search], with [self.indexer] as an argument. *)
Definition search (indexer : Indexer) (query : string) (top_k : Z)
    : list Result :=
  match strip query with
  | EmptyString => []
  | _ =>
      match Preprocessor.tokenize query with
      | [] => []
      | query_tokens =>
          let ranked :=
            compute_tfidf_scores query_tokens (index indexer)
              (doc_freq indexer) (documents indexer) top_k in
          map (enrich (documents indexer)) ranked
      end
  end.

(** [SearchEngine.index_stats] *)
Definition index_stats (indexer : Indexer) : nat * nat :=
  (List.length (documents indexer), List.length (index indexer)).

End WithFloats.
End SearchEngine.

(** ** The real numbers as an instance of the arithmetic *)

Module RealArith.

Definition Rltb (x y : R) : bool := if Rlt_dec x y then true else false.

(** Rounding to four decimals, ties to even. *)
Definition Rround4 (x : R) : R :=
  let y := (x * 10000)%R in
  let f := Int_part y in
  let r := frac_part y in
  let n := if Rlt_dec r (1 / 2) then f
           else if Rlt_dec (1 / 2) r then (f + 1)%Z
           else if Z.even f then f else (f + 1)%Z in
  (IZR n / 10000)%R.

#[export] Instance RealOps : FloatOps := {|
  fl := R;
  truediv := fun a b => (INR a / INR b)%R;
  math_log := ln;
  fadd := Rplus;
  fmul := Rmult;
  fzero := 0%R;
  fone := 1%R;
  fltb := Rltb;
  round4 := Rround4
|}.

End RealArith.

(** * Properties *)

(** ** The model on the example of the specification *)

Module Examples.
Import PyStr Preprocessor Dict Indexer.

Example tokenize_d0 :
  tokenize "The cat sat on the mat" = ["cat"; "sat"; "mat"].
Proof. reflexivity. Qed.

Example tokenize_d1 : tokenize "Dogs chase cats" = ["dog"; "chase"; "cat"].
Proof. reflexivity. Qed.

Example tokenize_punctuation :
  tokenize "  Web-crawling, in 2024: INDEXES & rankings!  "
  = ["web"; "crawl"; "2024"; "index"; "ranking"].
Proof. reflexivity. Qed.

Example stem_length_floor : _stem "bed" = "bed" /\ _stem "used" = "used".
Proof. split; reflexivity. Qed.

Example stem_rule_order :
  _stem "relational" = "relate" /\ _stem "pages" = "pag" /\
  _stem "running" = "runn".
Proof. repeat split. Qed.

Example split_whitespace : split "  a  bc d " = ["a"; "bc"; "d"].
Proof. reflexivity. Qed.

Example strip_whitespace : strip "  a b  " = "a b".
Proof. reflexivity. Qed.

Example snippet_short : _make_snippet "  The   cat sat " 200 = "The cat sat".
Proof. reflexivity. Qed.

Example snippet_cut :
  _make_snippet "The cat sat on the mat" 10 = ("The cat" ++ ELLIPSIS)%string.
Proof. reflexivity. Qed.

Example build_two_documents :
  let self := build_from_crawled_data init
                [mkPage (Some "D0") (Some "u0") (Some "The cat sat on the mat");
                 mkPage (Some "D1") (Some "u1") (Some "Dogs chase cats")] in
  index self
  = [("cat", [("doc_0", [0]); ("doc_1", [2])]);
     ("sat", [("doc_0", [1])]); ("mat", [("doc_0", [2])]);
     ("dog", [("doc_1", [0])]); ("chase", [("doc_1", [1])])] /\
  doc_freq self
  = [("cat", 2); ("sat", 1); ("mat", 1); ("dog", 1); ("chase", 1)] /\
  stored_length self "doc_0" = Some 3 /\ stored_length self "doc_1" = Some 3.
Proof. repeat split. Qed.

End Examples.

(** ** The tokenizer and the stemmer *)

Module PreprocessorFacts.
Import PyStr Preprocessor.

Lemma forallb_chars_append (p : ascii -> bool) (s1 s2 : string) :
  forallb_chars p (s1 ++ s2)%string = forallb_chars p s1 && forallb_chars p s2.
Proof.
  induction s1 as [|c r IH]; simpl; [reflexivity|].
  now rewrite IH, andb_assoc.
Qed.

Lemma forallb_chars_substring (p : ascii -> bool) (s : string) :
  forallb_chars p s = true ->
  forall n m, forallb_chars p (substring n m s) = true.
Proof.
  induction s as [|c r IH]; intros Hs n m.
  - destruct n, m; reflexivity.
  - simpl in Hs. apply andb_true_iff in Hs as [Hc Hr].
    destruct n as [|n].
    + destruct m as [|m]; simpl; [reflexivity|].
      rewrite Hc. simpl. apply IH, Hr.
    + simpl. apply IH, Hr.
Qed.

Lemma forallb_chars_of_list (p : ascii -> bool) (l : list ascii) :
  forallb_chars p (string_of_list_ascii l) = forallb p l.
Proof. induction l as [|c r IH]; simpl; [reflexivity | now rewrite IH]. Qed.

Lemma forallb_rev_true (p : ascii -> bool) (l : list ascii) :
  forallb p l = true -> forallb p (List.rev l) = true.
Proof.
  rewrite !forallb_forall. intros H x Hx. apply H, in_rev, Hx.
Qed.

Lemma length_of_list (l : list ascii) :
  String.length (string_of_list_ascii l) = List.length l.
Proof. induction l as [|c r IH]; simpl; [reflexivity | now rewrite IH]. Qed.

(** Every word that [split] produces is made of characters of the input that
    are not whitespace. *)
Lemma split_aux_chars (p : ascii -> bool) (s : string) :
  forall cur,
    forallb p cur = true ->
    forallb_chars (fun c => is_space c || p c) s = true ->
    Forall (fun w => forallb_chars p w = true) (split_aux cur s).
Proof.
  induction s as [|c r IH]; intros cur Hcur Hs; simpl.
  - destruct cur; constructor; [|constructor].
    rewrite forallb_chars_of_list. now apply forallb_rev_true.
  - simpl in Hs. apply andb_true_iff in Hs as [Hc Hr].
    destruct (is_space c) eqn:Esp.
    + destruct cur as [|c0 cur0].
      * apply IH; [reflexivity | exact Hr].
      * constructor.
        -- rewrite forallb_chars_of_list. now apply forallb_rev_true.
        -- apply IH; [reflexivity | exact Hr].
    + apply IH; [|exact Hr]. simpl in *. now rewrite Hc.
Qed.

Lemma sub_non_alnum_chars (s : string) :
  forallb_chars (fun c => is_space c || is_alnum c) (sub_non_alnum s) = true.
Proof.
  induction s as [|c r IH]; simpl; [reflexivity|].
  fold (sub_non_alnum r). rewrite IH, andb_true_r.
  destruct (is_alnum c) eqn:Ea; simpl.
  - rewrite Ea. apply orb_true_r.
  - destruct (is_space c) eqn:Es; simpl; [now rewrite Es | reflexivity].
Qed.

Lemma split_sub_non_alnum (s : string) :
  Forall (fun w => forallb_chars is_alnum w = true) (split (sub_non_alnum s)).
Proof.
  apply split_aux_chars; [reflexivity | apply sub_non_alnum_chars].
Qed.

(** The replacements of the rule table are lowercase words. *)
Lemma suffixes_alnum :
  Forall (fun r => forallb_chars is_alnum (snd r) = true) suffixes.
Proof. repeat constructor. Qed.

Lemma apply_rule_alnum (word suffix replacement : string) :
  forallb_chars is_alnum word = true ->
  forallb_chars is_alnum replacement = true ->
  forallb_chars is_alnum (apply_rule word suffix replacement) = true.
Proof.
  intros Hw Hr. unfold apply_rule, take.
  rewrite forallb_chars_append, Hr, andb_true_r.
  now apply forallb_chars_substring.
Qed.

Lemma stem_loop_shape (rules : list (string * string)) (word : string) :
  stem_loop rules word = word \/
  exists suffix replacement,
    In (suffix, replacement) rules /\
    stem_loop rules word = apply_rule word suffix replacement /\
    3 <= String.length (apply_rule word suffix replacement).
Proof.
  induction rules as [|[suffix replacement] rest IH];
    cbn [stem_loop In]; [now left|].
  assert (Hrest : stem_loop rest word = word \/
    exists suffix0 replacement0,
      ((suffix, replacement) = (suffix0, replacement0)
       \/ In (suffix0, replacement0) rest) /\
      stem_loop rest word = apply_rule word suffix0 replacement0 /\
      3 <= String.length (apply_rule word suffix0 replacement0)).
  { destruct IH as [IH | (s0 & r0 & Hin & Heq & Hlen)]; [now left|].
    right. exists s0, r0. auto. }
  destruct (endswith word suffix); [|exact Hrest].
  destruct (3 <=? String.length (apply_rule word suffix replacement)) eqn:E;
    [|exact Hrest].
  right. exists suffix, replacement. apply Nat.leb_le in E. auto.
Qed.

Lemma stem_token (word : string) :
  2 <= String.length word ->
  forallb_chars is_alnum word = true ->
  2 <= String.length (_stem word) /\ forallb_chars is_alnum (_stem word) = true.
Proof.
  intros Hlen Hw. unfold _stem.
  destruct (String.length word <=? 3); [now split|].
  destruct (stem_loop_shape suffixes word) as [-> | (s0 & r0 & Hin & -> & H3)];
    [now split|].
  split; [lia|].
  apply apply_rule_alnum; [exact Hw|].
  exact (proj1 (Forall_forall _ _) suffixes_alnum _ Hin).
Qed.

Lemma filter_stem_tokens (words : list string) :
  Forall (fun w => forallb_chars is_alnum w = true) words ->
  Forall (fun t => 2 <= String.length t /\ forallb_chars is_alnum t = true)
         (filter_stem words).
Proof.
  induction 1 as [|w ws Hw Hws IH]; cbn [filter_stem]; [constructor|].
  destruct (String.length w <? 2) eqn:E; [exact IH|].
  destruct (mem w STOP_WORDS); [exact IH|].
  constructor; [|exact IH].
  apply Nat.ltb_ge in E. now apply stem_token.
Qed.

Lemma stem_loop_find (rules : list (string * string)) (word : string) :
  stem_loop rules word =
  match find (rule_applies word) rules with
  | Some (suffix, replacement) => apply_rule word suffix replacement
  | None => word
  end.
Proof.
  induction rules as [|[suffix replacement] rest IH];
    cbn [stem_loop find]; [reflexivity|].
  unfold rule_applies at 1. cbn [fst snd].
  destruct (endswith word suffix); cbn [andb]; [|exact IH].
  destruct (3 <=? String.length (apply_rule word suffix replacement));
    [reflexivity | exact IH].
Qed.

(** C9. [_stem] returns a word of at most three characters unchanged; a longer
    word is rewritten by the first rule of the table, in table order, whose
    suffix ends the word and whose result has at least three characters, and
    is returned unchanged when the table has no such rule. The rules are
    applied once: the result is not stemmed again ("walkers" becomes
    "walker", although "walker" alone becomes "walk"). *)
Theorem stem_first_applicable_rule :
  (forall word : string,
      (String.length word <= 3 -> _stem word = word) /\
      (3 < String.length word ->
       _stem word =
       match find (rule_applies word) suffixes with
       | Some (suffix, replacement) => apply_rule word suffix replacement
       | None => word
       end) /\
      _stem word = stem_spec word) /\
  (_stem "walkers" = "walker" /\ _stem "walker" = "walk").
Proof.
  split; [|split; reflexivity].
  intro word. unfold _stem, stem_spec. repeat split.
  - intro H. apply Nat.leb_le in H. now rewrite H.
  - intro H. apply Nat.leb_gt in H. rewrite H. apply stem_loop_find.
  - destruct (String.length word <=? 3); [reflexivity | apply stem_loop_find].
Qed.

Lemma stem_first_applicable_rule_witness :
  _stem "cat" = "cat" /\ _stem "relational" = "relate".
Proof.
  split.
  - apply (proj1 (proj1 stem_first_applicable_rule "cat")). simpl. lia.
  - rewrite (proj1 (proj2 (proj1 stem_first_applicable_rule "relational")));
      [reflexivity | simpl; lia].
Defined.

(** C10. Every token that [tokenize] returns has at least two characters, all
    of them in [a-z0-9]. A token can be a stop word: "cans" is not a stop
    word and is stemmed to "can", which is one. *)
Theorem tokenize_tokens_alnum :
  (forall text : string,
      Forall (fun t => 2 <= String.length t /\ forallb_chars is_alnum t = true)
             (tokenize text)) /\
  (tokenize "cans" = ["can"] /\ mem "can" STOP_WORDS = true).
Proof.
  split; [|split; reflexivity].
  intro text. unfold tokenize. destruct text as [|c r]; [constructor|].
  apply filter_stem_tokens, split_sub_non_alnum.
Qed.

End PreprocessorFacts.

(** ** Dictionaries *)

Module DictFacts.
Import Dict.

Section Facts.
Context {V : Type}.
Implicit Types (k : string) (v : V) (d : dict V).

Lemma get_set_eq k v d : get k (set k v d) = Some v.
Proof.
  induction d as [|[k' v'] r IH]; simpl.
  - now rewrite String.eqb_refl.
  - destruct (String.eqb k k') eqn:E; simpl.
    + now rewrite String.eqb_refl.
    + now rewrite E.
Qed.

Lemma get_set_neq k k' v d : k <> k' -> get k' (set k v d) = get k' d.
Proof.
  intro Hne. induction d as [|[k0 v0] r IH]; simpl.
  - destruct (String.eqb_spec k' k); [congruence | reflexivity].
  - destruct (String.eqb_spec k k0) as [->|Hk0]; simpl.
    + destruct (String.eqb_spec k' k0); [congruence | reflexivity].
    + now rewrite IH.
Qed.

Lemma set_set k v v' d : set k v' (set k v d) = set k v' d.
Proof.
  induction d as [|[k0 v0] r IH]; simpl.
  - now rewrite String.eqb_refl.
  - destruct (String.eqb k k0) eqn:E; simpl.
    + now rewrite String.eqb_refl.
    + now rewrite E, IH.
Qed.

Lemma set_not_nil k v d : set k v d <> [].
Proof. destruct d as [|[k0 v0] r]; simpl; [|destruct (String.eqb k k0)]; discriminate. Qed.

Lemma mem_true_iff k d : mem k d = true <-> In k (keys d).
Proof.
  unfold mem. induction d as [|[k0 v0] r IH]; simpl.
  - split; [discriminate | tauto].
  - destruct (String.eqb_spec k k0) as [->|Hne].
    + split; auto.
    + rewrite IH. split; [auto | intros [H|H]; congruence].
Qed.

Lemma mem_false_iff k d : mem k d = false <-> ~ In k (keys d).
Proof.
  rewrite <- mem_true_iff. destruct (mem k d); split; congruence.
Qed.

Lemma mem_get_none k d : mem k d = false <-> get k d = None.
Proof. unfold mem. destruct (get k d); split; congruence. Qed.

Lemma mem_set k k' v d :
  mem k' (set k v d) = (String.eqb k' k || mem k' d)%bool.
Proof.
  unfold mem. destruct (String.eqb_spec k' k) as [->|Hne]; simpl.
  - now rewrite get_set_eq.
  - rewrite get_set_neq; [reflexivity | congruence].
Qed.

Lemma keys_set k v d :
  keys (set k v d) = if mem k d then keys d else keys d ++ [k].
Proof.
  unfold mem. induction d as [|[k0 v0] r IH]; simpl; [reflexivity|].
  destruct (String.eqb_spec k k0) as [->|Hne]; simpl; [reflexivity|].
  rewrite IH. now destruct (get k r).
Qed.

Lemma length_set k v d :
  List.length (set k v d) = if mem k d then List.length d else S (List.length d).
Proof.
  unfold mem. induction d as [|[k0 v0] r IH]; simpl; [reflexivity|].
  destruct (String.eqb_spec k k0) as [->|Hne]; simpl; [reflexivity|].
  rewrite IH. now destruct (get k r).
Qed.

Lemma wf_set k v d : wf d -> wf (set k v d).
Proof.
  unfold wf. intro H. rewrite keys_set.
  destruct (mem k d) eqn:E; [exact H|].
  apply mem_false_iff in E.
  apply Permutation_NoDup with (l := k :: keys d).
  - apply Permutation_cons_append.
  - now constructor.
Qed.

Lemma get_In k v d : get k d = Some v -> In (k, v) d.
Proof.
  induction d as [|[k0 v0] r IH]; simpl; [discriminate|].
  destruct (String.eqb_spec k k0) as [->|Hne].
  - intros [= ->]. now left.
  - intro H. right. now apply IH.
Qed.

Lemma In_get k v d : wf d -> In (k, v) d -> get k d = Some v.
Proof.
  unfold wf. induction d as [|[k0 v0] r IH]; simpl; [tauto|].
  intros Hnd [Heq|Hin]; inversion Hnd as [|? ? Hnotin Hnd']; subst.
  - inversion Heq; subst. now rewrite String.eqb_refl.
  - destruct (String.eqb_spec k k0) as [->|Hne].
    + exfalso. apply Hnotin. change k0 with (fst (k0, v)).
      now apply in_map.
    + now apply IH.
Qed.

Lemma get_default_not_mem k (dflt : V) d :
  mem k d = false -> get_default k dflt d = dflt.
Proof. unfold mem, get_default. now destruct (get k d). Qed.

Lemma get_default_set_eq k v (dflt : V) d : get_default k dflt (set k v d) = v.
Proof. unfold get_default. now rewrite get_set_eq. Qed.

End Facts.
End DictFacts.

(** ** The inverted index *)

Module IndexerFacts.
Import Dict DictFacts Indexer.

Lemma In_set {V : Type} (k k' : string) (v v' : V) (d : dict V) :
  In (k', v') (set k v d) -> (k' = k /\ v' = v) \/ In (k', v') d.
Proof.
  induction d as [|[k0 v0] r IH]; simpl.
  - intros [[= <- <-]|[]]. now left.
  - destruct (String.eqb k k0); simpl.
    + intros [[= <- <-]|H]; [now left | now right; right].
    + intros [H|H]; [now right; left|].
      destruct (IH H) as [H'|H']; [now left | now right; right].
Qed.

Lemma sorted_snoc (ps : list nat) (n : nat) :
  StronglySorted lt ps -> (forall p, In p ps -> p < n) ->
  StronglySorted lt (ps ++ [n]).
Proof.
  induction 1 as [|p ps Hs IH Hall]; intro Hlt; simpl.
  - repeat constructor.
  - constructor.
    + apply IH. intros q Hq. apply Hlt. now right.
    + apply Forall_app. split; [exact Hall|].
      constructor; [|constructor]. apply Hlt. now left.
Qed.

(** *** What one loop iteration does to the index *)

Definition new_postings (doc_id : string) (position : nat) (token : string)
    (idx : InvertedIndex) : Postings :=
  set doc_id
      (get_default doc_id [] (get_default token [] idx) ++ [position])
      (get_default token [] idx).

Lemma index_token_index doc_id position token s :
  l_index (index_token doc_id position token s)
  = set token (new_postings doc_id position token (l_index s)) (l_index s).
Proof.
  unfold index_token, new_postings.
  set (idx := l_index s).
  assert (E : forall b1 (x : InvertedIndex) y z u v,
             l_index (if b1 : bool then mkLoop x y z else mkLoop x u v) = x)
    by (now intros []).
  rewrite E. clear E.
  destruct (mem token idx) eqn:Ht.
  - set (P := get_default token [] idx).
    destruct (mem doc_id P) eqn:Hd; [reflexivity|].
    rewrite get_default_set_eq, set_set.
    now rewrite (get_default_not_mem _ _ _ Hd).
  - rewrite get_default_set_eq, set_set.
    rewrite (get_default_not_mem _ _ _ Ht).
    unfold mem, get_default. simpl. now rewrite String.eqb_refl.
Qed.

Lemma index_token_doc_freq doc_id position token s :
  l_doc_freq (index_token doc_id position token s)
  = if PyStr.mem token (l_seen s) then l_doc_freq s
    else set token (get_default token 0 (l_doc_freq s) + 1) (l_doc_freq s).
Proof. unfold index_token. now destruct (PyStr.mem token (l_seen s)). Qed.

Lemma index_token_seen doc_id position token s :
  l_seen (index_token doc_id position token s)
  = if PyStr.mem token (l_seen s) then l_seen s else token :: l_seen s.
Proof. unfold index_token. now destruct (PyStr.mem token (l_seen s)). Qed.

Lemma get_default_positions (idx : InvertedIndex) (t d : string) :
  get_default d [] (get_default t [] idx)
  = match positions idx t d with Some ps => ps | None => [] end.
Proof.
  unfold positions, get_default. now destruct (get t idx).
Qed.

Lemma get_postings_positions (idx : InvertedIndex) (t d : string) :
  get d (get_default t [] idx) = positions idx t d.
Proof.
  unfold positions, get_default. now destruct (get t idx).
Qed.

Lemma positions_index_token doc_id position token s t d :
  positions (l_index (index_token doc_id position token s)) t d
  = if (String.eqb t token && String.eqb d doc_id)%bool
    then Some (match positions (l_index s) token doc_id with
               | Some ps => ps
               | None => []
               end ++ [position])
    else positions (l_index s) t d.
Proof.
  rewrite index_token_index. unfold positions at 1.
  destruct (String.eqb_spec t token) as [->|Hne]; simpl.
  - rewrite get_set_eq. unfold new_postings.
    destruct (String.eqb_spec d doc_id) as [->|Hd].
    + now rewrite get_set_eq, get_default_positions.
    + rewrite get_set_neq by congruence. apply get_postings_positions.
  - rewrite get_set_neq by congruence. reflexivity.
Qed.

(** *** Non-empty postings, for any sequence of calls *)

Definition postings_ok (P : Postings) : Prop :=
  P <> [] /\ wf P /\ forall d ps, get d P = Some ps -> ps <> [].

Definition index_ok (idx : InvertedIndex) : Prop :=
  forall t P, get t idx = Some P -> postings_ok P.

Lemma get_default_wf (idx : InvertedIndex) (t : string) :
  index_ok idx -> wf (get_default t [] idx).
Proof.
  intro H. unfold get_default. destruct (get t idx) as [P|] eqn:E.
  - apply (H _ _ E).
  - constructor.
Qed.

Lemma index_token_ok doc_id position token s :
  index_ok (l_index s) ->
  index_ok (l_index (index_token doc_id position token s)).
Proof.
  intros Hok t P. rewrite index_token_index.
  destruct (String.eqb_spec t token) as [->|Hne].
  - rewrite get_set_eq. intros [= <-]. unfold new_postings. repeat split.
    + apply set_not_nil.
    + apply wf_set, get_default_wf, Hok.
    + intros d ps.
      destruct (String.eqb_spec d doc_id) as [->|Hd].
      * rewrite get_set_eq. intros [= <-]. now destruct (get_default _ _ _).
      * rewrite get_set_neq by congruence.
        unfold get_default at 1.
        destruct (get token (l_index s)) as [P0|] eqn:E; [|discriminate].
        apply (Hok _ _ E).
  - rewrite get_set_neq by congruence. apply Hok.
Qed.

Lemma index_tokens_ok doc_id tokens :
  forall position s,
    index_ok (l_index s) ->
    index_ok (l_index (index_tokens doc_id position tokens s)).
Proof.
  induction tokens as [|t r IH]; intros n s H; simpl; [exact H|].
  apply IH, index_token_ok, H.
Qed.

Lemma add_documents_ok (calls : list Call) :
  forall self, index_ok (index self) ->
               index_ok (index (add_documents self calls)).
Proof.
  induction calls as [|c r IH]; intros self H; simpl; [exact H|].
  apply IH. unfold add_call, add_document. simpl.
  now apply index_tokens_ok.
Qed.

(** *** The token loop on a document that is new to the index *)

(** The document-frequency table agrees with the index: a term is counted
    exactly when it is a key of the index, with the size of its postings. *)
Definition df_agrees (idx : InvertedIndex) (df : dict nat) : Prop :=
  forall t, get t df = if mem t idx
                       then Some (List.length (get_default t [] idx))
                       else None.

(** The state of the loop after the first [n] tokens of [T], while indexing
    document [doc_id] on top of the index [idx0]. *)
Record loop_inv (doc_id : string) (T : list string) (idx0 : InvertedIndex)
    (n : nat) (s : LoopState) : Prop := mkLoopInv {
  li_ok : index_ok (l_index s);
  li_df : df_agrees (l_index s) (l_doc_freq s);
  li_seen : forall t,
      PyStr.mem t (l_seen s) = mem doc_id (get_default t [] (l_index s));
  li_pos : forall t ps,
      positions (l_index s) t doc_id = Some ps ->
      StronglySorted lt ps /\
      forall p, In p ps -> p < n /\ nth_error T p = Some t;
  li_frame : forall t d,
      d <> doc_id -> positions (l_index s) t d = positions idx0 t d
}.

Lemma get_default_set_neq {V : Type} (k k' : string) (v dflt : V) (d : dict V) :
  k <> k' -> get_default k' dflt (set k v d) = get_default k' dflt d.
Proof. intro H. unfold get_default. now rewrite get_set_neq. Qed.

Lemma loop_inv_step doc_id T idx0 n s token :
  loop_inv doc_id T idx0 n s ->
  nth_error T n = Some token ->
  loop_inv doc_id T idx0 (S n) (index_token doc_id n token s).
Proof.
  intros [Hok Hdf Hseen Hpos Hframe] Hnth.
  pose proof (Hseen token) as Hseen_tok.
  constructor.
  - now apply index_token_ok.
  - (* doc_freq *)
    intro t. rewrite index_token_doc_freq, index_token_index.
    rewrite mem_set.
    destruct (String.eqb_spec t token) as [->|Hne]; simpl.
    + rewrite get_default_set_eq. unfold new_postings. rewrite length_set.
      pose proof (Hdf token) as Hdf_tok.
      destruct (PyStr.mem token (l_seen s)).
      * rewrite <- Hseen_tok.
        destruct (mem token (l_index s)) eqn:Em; [exact Hdf_tok|].
        rewrite (get_default_not_mem _ _ _ Em) in Hseen_tok. discriminate.
      * rewrite <- Hseen_tok, get_set_eq. f_equal.
        unfold get_default at 1. rewrite Hdf_tok.
        destruct (mem token (l_index s)) eqn:Em; [lia|].
        now rewrite (get_default_not_mem _ _ _ Em).
    + rewrite get_default_set_neq by congruence.
      destruct (PyStr.mem token (l_seen s)); [apply Hdf|].
      rewrite get_set_neq by congruence. apply Hdf.
  - (* seen_in_doc *)
    intro t. rewrite index_token_seen, index_token_index.
    destruct (String.eqb_spec t token) as [->|Hne].
    + rewrite get_default_set_eq. unfold new_postings.
      rewrite mem_set, String.eqb_refl. simpl.
      destruct (PyStr.mem token (l_seen s)) eqn:Es; [exact Es|].
      unfold PyStr.mem. simpl. now rewrite String.eqb_refl.
    + rewrite get_default_set_neq by congruence.
      destruct (PyStr.mem token (l_seen s)); [apply Hseen|].
      unfold PyStr.mem. simpl.
      destruct (String.eqb_spec t token); [congruence|]. apply Hseen.
  - (* positions of this document *)
    intros t ps. rewrite positions_index_token, String.eqb_refl, andb_true_r.
    destruct (String.eqb_spec t token) as [->|Hne].
    + intros [= <-].
      assert (Hold : StronglySorted lt
                       match positions (l_index s) token doc_id with
                       | Some ps => ps | None => [] end /\
                     forall p, In p match positions (l_index s) token doc_id with
                                    | Some ps => ps | None => [] end ->
                               p < n /\ nth_error T p = Some token).
      { destruct (positions (l_index s) token doc_id) as [ps0|] eqn:E.
        - apply (Hpos _ _ E).
        - split; [constructor | intros p []]. }
      destruct Hold as [Hsorted Hbound]. split.
      * apply sorted_snoc; [exact Hsorted|]. intros p Hp. apply Hbound, Hp.
      * intros p Hp. apply in_app_or in Hp as [Hp|[<-|[]]].
        -- destruct (Hbound p Hp). split; [lia | assumption].
        -- split; [lia | exact Hnth].
    + intro E. destruct (Hpos _ _ E) as [Hsorted Hbound].
      split; [exact Hsorted|]. intros p Hp.
      destruct (Hbound p Hp). split; [lia | assumption].
  - (* the other documents *)
    intros t d Hd. rewrite positions_index_token.
    destruct (String.eqb_spec d doc_id); [congruence|].
    rewrite andb_false_r. now apply Hframe.
Qed.

Lemma loop_inv_run doc_id T idx0 rest :
  forall n s,
    loop_inv doc_id T idx0 n s ->
    (forall i, i < List.length rest -> nth_error T (n + i) = nth_error rest i) ->
    loop_inv doc_id T idx0 (n + List.length rest)
             (index_tokens doc_id n rest s).
Proof.
  induction rest as [|t r IH]; intros n s Hinv Hrest; simpl.
  - now rewrite Nat.add_0_r.
  - replace (n + S (List.length r)) with (S n + List.length r) by lia.
    apply IH.
    + apply loop_inv_step; [exact Hinv|].
      specialize (Hrest 0). simpl in Hrest. rewrite Nat.add_0_r in Hrest.
      apply Hrest. lia.
    + intros i Hi. specialize (Hrest (S i)). simpl in Hrest.
      replace (S n + i) with (n + S i) by lia. apply Hrest. lia.
Qed.

(** *** Calls with pairwise distinct doc_ids *)

(** What holds of an [Indexer] after the calls [calls], whose doc_ids are
    pairwise distinct. *)
Record state_inv (calls : list Call) (self : Indexer) : Prop := mkStateInv {
  si_ok : index_ok (index self);
  si_df : df_agrees (index self) (doc_freq self);
  si_pos : forall t d ps,
      positions (index self) t d = Some ps ->
      exists c, In c calls /\ c_doc_id c = d /\ StronglySorted lt ps /\
                forall p, In p ps ->
                          nth_error (Preprocessor.tokenize (c_text c)) p = Some t;
  si_docs : forall c,
      In c calls ->
      stored_length self (c_doc_id c)
      = Some (List.length (Preprocessor.tokenize (c_text c)));
  si_keys : keys (documents self) = map c_doc_id calls
}.

Lemma state_inv_init : state_inv [] init.
Proof. constructor; easy. Qed.

Lemma state_inv_add_call calls self c :
  state_inv calls self ->
  ~ In (c_doc_id c) (map c_doc_id calls) ->
  state_inv (calls ++ [c]) (add_call self c).
Proof.
  intros [Hok Hdf Hpos Hdocs Hkeys] Hfresh.
  set (T := Preprocessor.tokenize (c_text c)).
  assert (Hnone : forall t, positions (index self) t (c_doc_id c) = None).
  { intro t. destruct (positions (index self) t (c_doc_id c)) as [ps|] eqn:E;
      [|reflexivity].
    destruct (Hpos _ _ _ E) as (c0 & Hin & Hid & _).
    exfalso. apply Hfresh. rewrite <- Hid. now apply in_map. }
  assert (Hloop : loop_inv (c_doc_id c) T (index self) (0 + List.length T)
                    (index_tokens (c_doc_id c) 0 T
                       (mkLoop (index self) (doc_freq self) []))).
  { apply loop_inv_run; [|reflexivity].
    constructor; simpl; try assumption.
    - intro t. unfold mem. now rewrite get_postings_positions, Hnone.
    - intros t ps. rewrite Hnone. discriminate.
    - reflexivity. }
  destruct Hloop as [Lok Ldf Lseen Lpos Lframe].
  unfold add_call, add_document. fold T.
  constructor; simpl.
  - exact Lok.
  - exact Ldf.
  - intros t d ps E.
    destruct (String.eqb_spec d (c_doc_id c)) as [->|Hne].
    + exists c. destruct (Lpos _ _ E) as [Hs Hb].
      repeat split; [apply in_or_app; right; now left | exact Hs |].
      intros p Hp. apply (Hb p Hp).
    + rewrite Lframe in E by exact Hne.
      destruct (Hpos _ _ _ E) as (c0 & Hin & Hid & Hs & Hb).
      exists c0. repeat split; auto. apply in_or_app. now left.
  - intros c0 Hin. unfold stored_length. simpl.
    apply in_app_or in Hin as [Hin|[<-|[]]].
    + rewrite get_set_neq.
      * apply (Hdocs _ Hin).
      * intro Heq. apply Hfresh. rewrite Heq. now apply in_map.
    + now rewrite get_set_eq.
  - rewrite keys_set, map_app. simpl.
    destruct (mem (c_doc_id c) (documents self)) eqn:Em.
    + apply mem_true_iff in Em. rewrite Hkeys in Em. contradiction.
    + now rewrite Hkeys.
Qed.

Lemma state_inv_add_documents calls :
  forall done self,
    state_inv done self ->
    NoDup (map c_doc_id (done ++ calls)) ->
    state_inv (done ++ calls) (add_documents self calls).
Proof.
  induction calls as [|c r IH]; intros done self Hinv Hnd; simpl.
  - now rewrite app_nil_r.
  - replace (done ++ c :: r) with ((done ++ [c]) ++ r) in *
      by (now rewrite <- app_assoc).
    apply IH; [|exact Hnd].
    apply state_inv_add_call; [exact Hinv|].
    rewrite !map_app in Hnd. simpl in Hnd.
    apply NoDup_app_remove_r in Hnd.
    apply NoDup_remove_2 in Hnd. now rewrite app_nil_r in Hnd.
Qed.

Lemma state_inv_fresh calls :
  NoDup (map c_doc_id calls) -> state_inv calls (add_documents init calls).
Proof.
  intro H. apply (state_inv_add_documents calls [] init state_inv_init H).
Qed.

Lemma filter_all {A : Type} (f : A -> bool) (l : list A) :
  (forall x, In x l -> f x = true) -> filter f l = l.
Proof.
  induction l as [|x r IH]; intro H; simpl; [reflexivity|].
  rewrite (H x (or_introl eq_refl)), IH; [reflexivity|].
  intros y Hy. apply H. now right.
Qed.

Lemma doc_count_length (idx : InvertedIndex) (t : string) :
  index_ok idx -> doc_count idx t = List.length (get_default t [] idx).
Proof.
  intro Hok. unfold doc_count.
  pose proof (get_default_wf idx t Hok) as Hwf.
  rewrite filter_all.
  - rewrite nodup_fixed_point by exact Hwf. apply length_map.
  - intros [d ps] Hin. simpl.
    unfold get_default in *. destruct (get t idx) as [P|] eqn:E; [|destruct Hin].
    destruct (Hok _ _ E) as (_ & _ & Hne).
    specialize (Hne d ps (In_get _ _ _ Hwf Hin)). now destruct ps.
Qed.

(** Distinctness of a concrete list of doc_ids. *)
Ltac distinct_ids :=
  repeat (constructor; [simpl; intuition discriminate|]); constructor.

(** *** Document frequencies *)

(** C1, as stated, fails when a doc_id is added twice: after
    [add_document("doc_0", "", "", "cat")] twice, ["cat"] is a key of the
    index, [doc_freq["cat"]] is 2, and one document holds the term. *)
Lemma doc_freq_overcounts_repeated_doc_id :
  let self := add_documents init
                [mkCall "doc_0" "" "" "cat"; mkCall "doc_0" "" "" "cat"] in
  mem "cat" (index self) = true /\
  get "cat" (doc_freq self) = Some 2 /\
  doc_count (index self) "cat" = 1.
Proof. repeat split. Qed.

(** C1 (amended). After any sequence of [add_document] calls with pairwise
    distinct doc_ids on a freshly constructed [Indexer], every term [t] that
    is a key of the index has [doc_freq[t]] equal to the number of distinct
    doc_ids [d] for which [index[t][d]] is a non-empty position list. *)
Theorem doc_freq_counts_documents (calls : list Call) (t : string) :
  NoDup (map c_doc_id calls) ->
  mem t (index (add_documents init calls)) = true ->
  get t (doc_freq (add_documents init calls))
  = Some (doc_count (index (add_documents init calls)) t).
Proof.
  intros Hnd Hmem.
  destruct (state_inv_fresh calls Hnd) as [Hok Hdf _ _ _].
  rewrite (Hdf t), Hmem. f_equal. symmetry. now apply doc_count_length.
Qed.

Lemma doc_freq_counts_documents_witness :
  let calls := [mkCall "doc_0" "A" "u0" "The cat sat on the mat";
                mkCall "doc_1" "B" "u1" "Dogs chase cats"] in
  get "cat" (doc_freq (add_documents init calls))
  = Some (doc_count (index (add_documents init calls)) "cat").
Proof.
  intro calls. apply (doc_freq_counts_documents calls "cat").
  - distinct_ids.
  - reflexivity.
Defined.

(** *** Postings *)

(** C5, as stated, fails when a doc_id is added twice: after
    [add_document("doc_0", "", "", "cat dog")] and then
    [add_document("doc_0", "", "", "cat")], the positions of "cat" repeat 0,
    and "dog" keeps position 1 in a document whose stored length is 1. *)
Lemma positions_repeat_for_repeated_doc_id :
  let self := add_documents init
                [mkCall "doc_0" "" "" "cat dog"; mkCall "doc_0" "" "" "cat"] in
  positions (index self) "cat" "doc_0" = Some [0; 0] /\
  positions (index self) "dog" "doc_0" = Some [1] /\
  stored_length self "doc_0" = Some 1.
Proof. repeat split. Qed.

(** C5 (amended). After any sequence of [add_document] calls on a freshly
    constructed [Indexer], no term key of the index has an empty postings map
    and no (term, doc_id) entry has an empty position list. When the doc_ids
    of the calls are pairwise distinct, every position list [index[t][d]] is
    moreover strictly increasing, and each of its positions [p] is below the
    stored length of [d] and is an index into the token sequence of [d] at
    which [t] stands. *)
Theorem postings_nonempty_and_increasing (calls : list Call) :
  (forall t P,
      get t (index (add_documents init calls)) = Some P ->
      P <> [] /\
      forall d ps, In (d, ps) P -> ps <> []) /\
  (NoDup (map c_doc_id calls) ->
   forall t d ps,
     positions (index (add_documents init calls)) t d = Some ps ->
     StronglySorted lt ps /\
     exists c,
       In c calls /\ c_doc_id c = d /\
       stored_length (add_documents init calls) d
       = Some (List.length (Preprocessor.tokenize (c_text c))) /\
       forall p, In p ps ->
                 p < List.length (Preprocessor.tokenize (c_text c)) /\
                 nth_error (Preprocessor.tokenize (c_text c)) p = Some t).
Proof.
  split.
  - intros t P E.
    assert (Hok : index_ok (index (add_documents init calls)))
      by (apply add_documents_ok; intros t0 P0; discriminate).
    destruct (Hok _ _ E) as (Hne & Hwf & Hps). split; [exact Hne|].
    intros d ps Hin. apply (Hps d), In_get; assumption.
  - intros Hnd t d ps E.
    destruct (state_inv_fresh calls Hnd) as [_ _ Hpos Hdocs _].
    destruct (Hpos _ _ _ E) as (c & Hin & Hid & Hs & Hb).
    split; [exact Hs|]. exists c.
    split; [exact Hin|]. split; [exact Hid|]. split.
    + rewrite <- Hid. now apply Hdocs.
    + intros p Hp. split; [|now apply Hb].
      apply nth_error_Some. rewrite (Hb p Hp). discriminate.
Qed.

Lemma postings_nonempty_and_increasing_witness :
  let calls := [mkCall "doc_0" "A" "u0" "The cat sat on the mat, the cat";
                mkCall "doc_1" "B" "u1" "Dogs chase cats"] in
  ([("doc_0", [0; 3]); ("doc_1", [2])] <> [] /\
   forall d ps, In (d, ps) [("doc_0", [0; 3]); ("doc_1", [2])] -> ps <> []) /\
  StronglySorted lt [0; 3].
Proof.
  intro calls. split.
  - apply (proj1 (postings_nonempty_and_increasing calls) "cat"). reflexivity.
  - apply (proj2 (postings_nonempty_and_increasing calls)
             ltac:(distinct_ids) "cat" "doc_0" [0; 3] eq_refl).
Defined.

(** *** Bulk ingestion *)

Lemma build_loop_calls (pages : list Page) :
  forall self i, build_loop self i pages = add_documents self (calls_from i pages).
Proof.
  induction pages as [|p r IH]; intros self i; simpl; [reflexivity|].
  now rewrite IH.
Qed.

Lemma calls_from_ids (pages : list Page) :
  forall i, map c_doc_id (calls_from i pages)
            = map doc_id_of (seq i (List.length pages)).
Proof.
  induction pages as [|p r IH]; intro i; simpl; [reflexivity|].
  now rewrite IH.
Qed.

Lemma doc_id_of_inj (i j : nat) : doc_id_of i = doc_id_of j -> i = j.
Proof.
  unfold doc_id_of, PyStr.of_nat. simpl. intros [= H].
  apply DecimalNat.Unsigned.to_uint_inj.
  pose proof (DecimalString.NilEmpty.usu (Nat.to_uint i)) as Hi.
  rewrite H, DecimalString.NilEmpty.usu in Hi. congruence.
Qed.

Lemma doc_ids_distinct (i n : nat) : NoDup (map doc_id_of (seq i n)).
Proof.
  apply Finite.Injective_map_NoDup; [|apply seq_NoDup].
  intros a b. apply doc_id_of_inj.
Qed.

Lemma add_documents_app (self : Indexer) (calls1 calls2 : list Call) :
  add_documents self (calls1 ++ calls2)
  = add_documents (add_documents self calls1) calls2.
Proof. apply fold_left_app. Qed.

(** C4, as stated, fails on a second call: [build_from_crawled_data] does not
    reset the [Indexer]. Building twice from the one page "cat" on the same
    object leaves positions [0, 0] for "doc_0" and a document frequency of 2,
    where a build on a fresh object gives [0] and 1. *)
Lemma second_build_appends :
  let page := mkPage (Some "T") (Some "u") (Some "cat") in
  let once := build_from_crawled_data init [page] in
  let twice := build_from_crawled_data once [page] in
  index once = [("cat", [("doc_0", [0])])] /\
  doc_freq once = [("cat", 1)] /\
  index twice = [("cat", [("doc_0", [0; 0])])] /\
  doc_freq twice = [("cat", 2)].
Proof. repeat split. Qed.

(** C4 (amended). [build_from_crawled_data] calls [add_document] once for each
    page, in input order, with the doc_ids "doc_0", "doc_1", ..., which are
    pairwise distinct; it works on the structures that the [Indexer] already
    holds and does not reset them. Called on a freshly constructed [Indexer]
    it starts from an empty index, and the document store then holds exactly
    those doc_ids in order; a second call on the same [Indexer] adds its calls
    after those of the first. *)
Theorem build_from_crawled_data_calls :
  (forall self pages,
      build_from_crawled_data self pages
      = add_documents self (calls_from 0 pages)) /\
  (forall pages,
      map c_doc_id (calls_from 0 pages)
      = map doc_id_of (seq 0 (List.length pages))) /\
  (doc_id_of 0 = "doc_0" /\ doc_id_of 1 = "doc_1" /\ doc_id_of 10 = "doc_10") /\
  (forall n, NoDup (map doc_id_of (seq 0 n))) /\
  (forall pages,
      keys (documents (build_from_crawled_data init pages))
      = map doc_id_of (seq 0 (List.length pages))) /\
  (forall pages1 pages2,
      build_from_crawled_data (build_from_crawled_data init pages1) pages2
      = add_documents init (calls_from 0 pages1 ++ calls_from 0 pages2)).
Proof.
  repeat split.
  - intros self pages. apply build_loop_calls.
  - intro pages. apply calls_from_ids.
  - intro n. apply doc_ids_distinct.
  - intro pages. unfold build_from_crawled_data. rewrite build_loop_calls.
    assert (Hnd : NoDup (map c_doc_id (calls_from 0 pages)))
      by (rewrite calls_from_ids; apply doc_ids_distinct).
    rewrite (si_keys _ _ (state_inv_fresh _ Hnd)). apply calls_from_ids.
  - intros pages1 pages2. unfold build_from_crawled_data.
    now rewrite !build_loop_calls, add_documents_app.
Qed.

End IndexerFacts.

(** ** Exact real arithmetic satisfies the laws *)

Module RealArithFacts.
Import RealArith.

Lemma Rltb_false (x y : R) : Rltb y x = false <-> (x <= y)%R.
Proof. unfold Rltb. destruct (Rlt_dec y x); split; intros; try lra; easy. Qed.

Lemma Rltb_true (x y : R) : Rltb x y = true <-> (x < y)%R.
Proof. unfold Rltb. destruct (Rlt_dec x y); split; intros; try lra; easy. Qed.

Lemma fle_real (x y : R) : @fle RealOps x y <-> (x <= y)%R.
Proof. apply Rltb_false. Qed.

#[export] Instance RealOrder : FloatOrder RealOps.
Proof.
  constructor; simpl.
  - intros x y H. apply Rltb_true in H. apply Rltb_false. lra.
  - intros x y z Hxy Hyz. apply Rltb_false in Hxy, Hyz. apply Rltb_false. lra.
Qed.

#[export] Instance RealMonotone : FloatMonotone RealOps.
Proof.
  constructor; try exact RealOrder; intros; rewrite ?fle_real in *; simpl in *.
  - (* a / d <= b / d *)
    apply Rmult_le_compat_r.
    + left. apply Rinv_0_lt_compat. now apply lt_0_INR.
    + now apply le_INR.
  - (* 1 <= a / b *)
    assert (Hb : (0 < INR b)%R) by now apply lt_0_INR.
    apply Rmult_le_reg_r with (r := INR b); [exact Hb|].
    unfold Rdiv. rewrite Rmult_assoc, Rinv_l, Rmult_1_r, Rmult_1_l by lra.
    now apply le_INR.
  - (* 0 <= ln x *)
    rewrite <- ln_1. destruct H as [H| <-]; [|lra].
    left. apply ln_increasing; lra.
  - lra.
  - now apply Rmult_le_compat_r.
  - lra.
Qed.

End RealArithFacts.

(** ** The ranker *)

Module RankerFacts.
Import Dict DictFacts Indexer Ranker.

Section WithFloats.
Context `{F : FloatOps}.

(** *** Slicing *)

Lemma slice_to_nonneg {A : Type} (l : list A) (k : Z) :
  (0 <= k)%Z -> slice_to l k = firstn (Z.to_nat k) l.
Proof.
  intro H. unfold slice_to. destruct (k <? 0)%Z eqn:E; [|reflexivity].
  apply Z.ltb_lt in E. lia.
Qed.

Lemma slice_to_firstn {A : Type} (l : list A) (k : Z) :
  exists n, slice_to l k = firstn n l.
Proof. unfold slice_to. destruct (k <? 0)%Z; eauto. Qed.

Lemma firstn_succ_app {A : Type} (n : nat) (l : list A) :
  exists rest, firstn (S n) l = firstn n l ++ rest.
Proof.
  revert l. induction n as [|n IH]; intro l.
  - exists (firstn 1 l). reflexivity.
  - destruct l as [|x r]; [now exists []|].
    destruct (IH r) as [rest Hrest]. exists rest.
    change (firstn (S (S n)) (x :: r)) with (x :: firstn (S n) r).
    now rewrite Hrest.
Qed.

Lemma In_firstn {A : Type} (n : nat) (l : list A) (x : A) :
  In x (firstn n l) -> In x l.
Proof.
  intro H. rewrite <- (firstn_skipn n l). apply in_or_app. now left.
Qed.



(** *** Sorting *)

Lemma insert_desc_perm (x : string * fl) (l : list (string * fl)) :
  Permutation (insert_desc x l) (x :: l).
Proof.
  induction l as [|y r IH]; simpl; [reflexivity|].
  destruct (fltb (snd x) (snd y)); [|reflexivity].
  rewrite IH. apply perm_swap.
Qed.

Lemma sorted_desc_perm (l : list (string * fl)) :
  Permutation (sorted_desc l) l.
Proof.
  induction l as [|x r IH]; simpl; [reflexivity|].
  rewrite insert_desc_perm. now constructor.
Qed.

Lemma sorted_desc_length (l : list (string * fl)) :
  List.length (sorted_desc l) = List.length l.
Proof. apply Permutation_length, sorted_desc_perm. Qed.




(** *** Accumulated scores *)

(** What the query term [t] adds to the score of document [d]: nothing unless
    [t] is a key of the index, [d] is a key of [index[t]] and [d] has an entry
    in [documents]. *)
Definition term_score (index : InvertedIndex) (doc_freq : dict nat)
    (documents : Documents) (d t : string) : option fl :=
  if mem t index then
    match get d (get_default t [] index), get d documents with
    | Some positions, Some doc_meta =>
        Some (tfidf_of (idf_of (List.length documents) (get_default t 0 doc_freq))
                       positions doc_meta)
    | _, _ => None
    end
  else None.

(** [scores[d] = scores.get(d, 0.0) + x] seen from the entry of [d]. *)
Definition accumulate (acc : option fl) (x : option fl) : option fl :=
  match x with
  | Some v => Some (fadd (match acc with Some a => a | None => fzero end) v)
  | None => acc
  end.

Lemma score_postings_absent documents idf items d :
  forall scores,
    ~ In d (keys items) ->
    get d (score_postings documents idf items scores) = get d scores.
Proof.
  induction items as [|[d0 ps0] r IH]; intros scores Hnot; simpl;
    [reflexivity|].
  simpl in Hnot.
  assert (Hd0 : d0 <> d) by tauto. assert (Hr : ~ In d (keys r)) by tauto.
  destruct (get d0 documents) as [meta|]; rewrite IH by exact Hr;
    [|reflexivity].
  now apply get_set_neq.
Qed.

Lemma score_postings_get documents idf items d :
  wf items ->
  forall scores,
    get d (score_postings documents idf items scores)
    = accumulate (get d scores)
        match get d items, get d documents with
        | Some positions, Some doc_meta => Some (tfidf_of idf positions doc_meta)
        | _, _ => None
        end.
Proof.
  unfold wf. induction items as [|[d0 ps0] r IH]; intros Hwf scores;
    [reflexivity|].
  simpl in Hwf. inversion Hwf as [|? ? Hnot Hwf']; subst.
  cbn [score_postings get].
  destruct (String.eqb_spec d d0) as [->|Hne].
  - destruct (get d0 documents) as [meta|].
    + rewrite score_postings_absent by exact Hnot.
      rewrite get_set_eq. reflexivity.
    + now rewrite score_postings_absent by exact Hnot.
  - destruct (get d0 documents) as [meta|]; rewrite IH by exact Hwf';
      [|reflexivity].
    unfold get_default. now rewrite get_set_neq by congruence.
Qed.

Lemma score_postings_wf documents idf items :
  forall scores, wf scores -> wf (score_postings documents idf items scores).
Proof.
  induction items as [|[d0 ps0] r IH]; intros scores H; simpl; [exact H|].
  destruct (get d0 documents); apply IH; [now apply wf_set | exact H].
Qed.

Lemma score_terms_wf index doc_freq documents query_tokens :
  forall scores,
    wf scores -> wf (score_terms index doc_freq documents query_tokens scores).
Proof.
  induction query_tokens as [|t r IH]; intros scores H; simpl; [exact H|].
  destruct (mem t index); apply IH; [now apply score_postings_wf | exact H].
Qed.

Lemma postings_wf_get_default index t :
  postings_wf index -> wf (get_default t [] index).
Proof.
  intro H. unfold get_default. destruct (get t index) as [P|] eqn:E.
  - exact (H _ _ E).
  - constructor.
Qed.

Lemma score_terms_get index doc_freq documents d query_tokens :
  postings_wf index ->
  forall scores,
    get d (score_terms index doc_freq documents query_tokens scores)
    = fold_left accumulate
        (map (term_score index doc_freq documents d) query_tokens)
        (get d scores).
Proof.
  intro Hwf. induction query_tokens as [|t r IH]; intro scores;
    [reflexivity|].
  cbn [score_terms map fold_left]. unfold term_score at 2.
  destruct (mem t index).
  - rewrite IH, score_postings_get by (now apply postings_wf_get_default).
    reflexivity.
  - now rewrite IH.
Qed.

(** The query terms that count for document [d], in query order. *)
Definition matching_terms (index : InvertedIndex) (d : string)
    (query_tokens : list string) : list string :=
  filter (fun t => mem t index && mem d (get_default t [] index)) query_tokens.

(** [tf * idf] for term [t] and document [d], the way the specification
    writes it. *)
Definition tfidf_formula (index : InvertedIndex) (doc_freq : dict nat)
    (documents : Documents) (doc_meta : DocMeta) (d t : string) : fl :=
  fmul (truediv (List.length (get_default d [] (get_default t [] index)))
                (doc_length_of doc_meta))
       (fadd (math_log (truediv (List.length documents + 1)
                                (get_default t 0 doc_freq + 1)))
             fone).




Lemma term_score_formula index doc_freq documents d doc_meta t :
  get d documents = Some doc_meta ->
  term_score index doc_freq documents d t
  = if mem t index && mem d (get_default t [] index)
    then Some (tfidf_formula index doc_freq documents doc_meta d t)
    else None.
Proof.
  intro Hmeta. unfold term_score, tfidf_formula, tfidf_of, idf_of.
  rewrite Hmeta. destruct (mem t index); [|reflexivity].
  unfold mem. cbn [andb].
  assert (E : get_default d [] (get_default t [] index)
              = match get d (get_default t [] index) with
                | Some ps => ps
                | None => []
                end) by reflexivity.
  rewrite E. now destruct (get d (get_default t [] index)).
Qed.

Lemma fold_accumulate_formula index doc_freq documents d doc_meta query_tokens :
  get d documents = Some doc_meta ->
  forall acc,
    fold_left accumulate
      (map (term_score index doc_freq documents d) query_tokens) acc
    = match matching_terms index d query_tokens with
      | [] => acc
      | _ =>
          Some (fold_left fadd
                  (map (tfidf_formula index doc_freq documents doc_meta d)
                       (matching_terms index d query_tokens))
                  (match acc with Some a => a | None => fzero end))
      end.
Proof.
  intro Hmeta. unfold matching_terms.
  induction query_tokens as [|t r IH]; intro acc; [reflexivity|].
  cbn [map fold_left filter].
  rewrite (term_score_formula _ _ _ _ _ _ Hmeta), IH.
  destruct (mem t index && mem d (get_default t [] index)); cbn [accumulate].
  - cbn [map fold_left]. now destruct (filter _ r).
  - reflexivity.
Qed.

Lemma fold_accumulate_none (xs : list (option fl)) :
  Forall (fun x => x = None) xs -> forall acc, fold_left accumulate xs acc = acc.
Proof.
  induction 1 as [|x r Hx Hr IH]; intro acc; [reflexivity|].
  subst x. simpl. apply IH.
Qed.

Lemma term_score_no_meta index doc_freq documents d t :
  get d documents = None -> term_score index doc_freq documents d t = None.
Proof.
  intro H. unfold term_score. rewrite H.
  destruct (mem t index); [|reflexivity].
  now destruct (get d (get_default t [] index)).
Qed.

Lemma ranked_in_scores query_tokens index doc_freq documents top_k d s :
  In (d, s) (compute_tfidf_scores query_tokens index doc_freq documents top_k) ->
  get d (score_terms index doc_freq documents query_tokens []) = Some s.
Proof.
  unfold compute_tfidf_scores. intro Hin.
  destruct (slice_to_firstn
              (sorted_desc (score_terms index doc_freq documents query_tokens []))
              top_k) as [n Hn].
  rewrite Hn in Hin. apply In_firstn in Hin.
  apply (Permutation_in _ (sorted_desc_perm _)) in Hin.
  apply In_get; [|exact Hin]. apply score_terms_wf. constructor.
Qed.


Lemma score_formula query_tokens index doc_freq documents d s :
  postings_wf index ->
  get d (score_terms index doc_freq documents query_tokens []) = Some s ->
  exists doc_meta,
    get d documents = Some doc_meta /\
    matching_terms index d query_tokens <> [] /\
    s = fold_left fadd
          (map (tfidf_formula index doc_freq documents doc_meta d)
               (matching_terms index d query_tokens))
          fzero.
Proof.
  intros Hwf Hget. rewrite score_terms_get in Hget by exact Hwf.
  cbn [get] in Hget.
  destruct (get d documents) as [doc_meta|] eqn:Hmeta.
  - exists doc_meta. split; [reflexivity|].
    rewrite (fold_accumulate_formula _ _ _ _ _ _ Hmeta) in Hget.
    destruct (matching_terms index d query_tokens) as [|t r];
      [discriminate|].
    split; [discriminate | congruence].
  - rewrite fold_accumulate_none in Hget; [discriminate|].
    apply Forall_forall. intros x Hx. apply in_map_iff in Hx as (t & <- & _).
    now apply term_score_no_meta.
Qed.


(** *** Ranking monotonicity *)

(** The invariants of the data model on a snapshot: doc_ids are pairwise
    distinct within each postings map, [doc_freq[t]] is the number of doc_ids
    under [index[t]], and each of those doc_ids has an entry in [documents]. *)
Definition consistent (index : InvertedIndex) (doc_freq : dict nat)
    (documents : Documents) : Prop :=
  postings_wf index /\
  forall t P,
    get t index = Some P ->
    get t doc_freq = Some (List.length P) /\
    forall d, In d (keys P) -> mem d documents = true.

Lemma consistent_doc_freq_le index doc_freq documents t P :
  consistent index doc_freq documents ->
  get t index = Some P ->
  get_default t 0 doc_freq <= List.length documents.
Proof.
  intros [Hwf Hc] E. destruct (Hc _ _ E) as [Hdf Hdocs].
  unfold get_default. rewrite Hdf.
  rewrite <- (length_map fst P), <- (length_map fst documents).
  apply NoDup_incl_length.
  - exact (Hwf _ _ E).
  - intros d Hd. apply mem_true_iff, Hdocs, Hd.
Qed.

Lemma postings_wf_set index t (P : Postings) :
  postings_wf index -> wf P -> postings_wf (set t P index).
Proof.
  intros H HP t' P'. destruct (String.eqb_spec t' t) as [->|Hne].
  - rewrite get_set_eq. now intros [= <-].
  - rewrite get_set_neq by congruence. apply H.
Qed.

Lemma scores_in_ranked query_tokens index doc_freq documents top_k d s :
  get d (score_terms index doc_freq documents query_tokens []) = Some s ->
  (Z.of_nat (List.length (score_terms index doc_freq documents query_tokens []))
   <= top_k)%Z ->
  In (d, s) (compute_tfidf_scores query_tokens index doc_freq documents top_k).
Proof.
  intros Hget Hk. unfold compute_tfidf_scores.
  rewrite slice_to_nonneg by lia.
  rewrite firstn_all2 by (rewrite sorted_desc_length; lia).
  apply (Permutation_in _ (Permutation_sym (sorted_desc_perm _))).
  now apply get_In.
Qed.

Lemma single_term_score index doc_freq documents t d P ps top_k s :
  wf P ->
  get t index = Some P ->
  get d P = Some ps ->
  In (d, s) (compute_tfidf_scores [t] index doc_freq documents top_k) ->
  exists doc_meta,
    get d documents = Some doc_meta /\
    s = fadd fzero
          (fmul (truediv (List.length ps) (doc_length_of doc_meta))
                (idf_of (List.length documents) (get_default t 0 doc_freq))).
Proof.
  intros HP Ht Hd Hin. apply ranked_in_scores in Hin.
  cbn [score_terms] in Hin. unfold mem, get_default at 2 in Hin.
  rewrite Ht in Hin. rewrite score_postings_get in Hin by exact HP.
  rewrite Hd in Hin. cbn [get] in Hin.
  destruct (get d documents) as [doc_meta|]; [|discriminate].
  exists doc_meta. split; [reflexivity|].
  cbn [accumulate] in Hin. unfold tfidf_of in Hin. congruence.
Qed.

Lemma score_postings_length documents idf items :
  forall scores,
    List.length (score_postings documents idf items scores)
    <= List.length scores + List.length items.
Proof.
  induction items as [|[d0 ps0] r IH]; intro scores; simpl; [lia|].
  destruct (get d0 documents) as [meta|].
  - etransitivity; [apply IH|]. rewrite length_set.
    destruct (mem d0 scores); lia.
  - etransitivity; [apply IH|]. lia.
Qed.

(** With enough room in [top_k], a document listed under the single query
    term and present in the document store is returned with its score. *)
Lemma single_term_present index doc_freq documents t d P ps doc_meta top_k :
  wf P ->
  get t index = Some P ->
  get d P = Some ps ->
  get d documents = Some doc_meta ->
  (Z.of_nat (List.length P) <= top_k)%Z ->
  In (d, fadd fzero
           (fmul (truediv (List.length ps) (doc_length_of doc_meta))
                 (idf_of (List.length documents) (get_default t 0 doc_freq))))
     (compute_tfidf_scores [t] index doc_freq documents top_k).
Proof.
  intros HP Ht Hd Hm Hk.
  assert (E : score_terms index doc_freq documents [t] []
              = score_postings documents
                  (idf_of (List.length documents) (get_default t 0 doc_freq))
                  P []).
  { cbn [score_terms]. unfold mem, get_default at 2. now rewrite Ht. }
  apply scores_in_ranked; rewrite E.
  - rewrite score_postings_get by exact HP. now rewrite Hd, Hm.
  - pose proof (score_postings_length documents
                  (idf_of (List.length documents) (get_default t 0 doc_freq))
                  P []) as Hlen.
    simpl in Hlen. lia.
Qed.

Lemma idf_nonneg `{!FloatMonotone F} (total_docs df : nat) :
  df <= total_docs -> fle fzero (idf_of total_docs df).
Proof.
  intro H. unfold idf_of.
  apply fadd_one_nonneg, math_log_nonneg, truediv_ge_one; lia.
Qed.

Lemma doc_length_pos (doc_meta : DocMeta) : 0 < doc_length_of doc_meta.
Proof. unfold doc_length_of. destruct (meta_length doc_meta) as [[|n]|]; lia. Qed.

(** C6 (amended). Take a snapshot in which [doc_freq[t]] does not exceed the
    number of documents, as the invariants of the data model guarantee, a
    term [t] and a document [d] listed under [index[t]], and a second snapshot
    that differs only in that [index[t][d]] is a longer position list (the
    stored lengths, the document store and the document frequencies are the
    same). For the single-term query [[t]], the score that
    [compute_tfidf_scores] returns for [d] in the second snapshot is not
    below the score it returns in the first, in any arithmetic whose
    operations are monotone. *)
Theorem more_occurrences_never_lower_score `{!FloatMonotone F}
    (index : InvertedIndex) (doc_freq : dict nat) (documents : Documents)
    (t d : string) (P : Postings) (ps1 ps2 : list nat) (k1 k2 : Z)
    (s1 s2 : fl) :
  get_default t 0 doc_freq <= List.length documents ->
  wf P ->
  get t index = Some P ->
  get d P = Some ps1 ->
  List.length ps1 < List.length ps2 ->
  In (d, s1) (compute_tfidf_scores [t] index doc_freq documents k1) ->
  In (d, s2) (compute_tfidf_scores [t] (set t (set d ps2 P) index)
                                   doc_freq documents k2) ->
  fle s1 s2.
Proof.
  intros Hdf HP Ht Hd Hlen H1 H2.
  destruct (single_term_score _ _ _ _ _ _ _ _ _ HP Ht Hd H1)
    as (meta1 & Hm1 & ->).
  destruct (single_term_score _ _ _ t d (set d ps2 P) ps2 _ _
              (wf_set _ _ _ HP) (get_set_eq _ _ _) (get_set_eq _ _ _) H2)
    as (meta2 & Hm2 & ->).
  assert (meta2 = meta1) by congruence. subst meta2.
  apply fadd_zero_mono, fmul_mono.
  - now apply idf_nonneg.
  - apply truediv_mono; [lia | apply doc_length_pos].
Qed.

(** *** The two-document example, scored in any arithmetic *)





End WithFloats.

(** A snapshot built by [add_document] calls with pairwise distinct doc_ids
    satisfies the invariants of the data model. *)
Lemma reachable_consistent (calls : list Call) :
  NoDup (map c_doc_id calls) ->
  consistent (index (add_documents init calls))
             (doc_freq (add_documents init calls))
             (documents (add_documents init calls)).
Proof.
  intro Hnd.
  destruct (IndexerFacts.state_inv_fresh calls Hnd) as [Hok Hdf Hpos _ Hkeys].
  split.
  - intros t P E. apply (Hok _ _ E).
  - intros t P E. split.
    + rewrite (Hdf t). unfold mem, get_default. now rewrite E.
    + intros d Hd. apply mem_true_iff in Hd. unfold mem in Hd.
      destruct (get d P) as [ps|] eqn:Eps; [|discriminate].
      assert (Hp : positions (index (add_documents init calls)) t d = Some ps)
        by (unfold positions; now rewrite E).
      destruct (Hpos _ _ _ Hp) as (c & Hin & Hid & _).
      apply mem_true_iff. rewrite Hkeys, <- Hid. now apply in_map.
Qed.




Lemma idf_negative_when_overcounted : (ln (INR 2 / INR 7) + 1 < 0)%R.
Proof.
  assert (H27 : (INR 2 / INR 7 = 2 / 7)%R)
    by (rewrite !INR_IZR_INZ; reflexivity).
  rewrite H27.
  assert (Hexp : (2 / 7 < exp (Ropp 1))%R).
  { rewrite exp_Ropp.
    pose proof exp_le_3 as H3. pose proof (exp_pos 1) as Hpos.
    apply Rlt_le_trans with (r2 := (/ 3)%R); [lra|].
    apply Rinv_le_contravar; assumption. }
  assert (Hln : (ln (2 / 7) < ln (exp (Ropp 1)))%R)
    by (apply ln_increasing; [lra | exact Hexp]).
  rewrite ln_exp in Hln. lra.
Qed.

(** C6, as stated, fails on a snapshot whose document frequency exceeds the
    number of documents. Six [add_document] calls with the doc_id "doc_0" and
    the text "cat" leave one document and [doc_freq["cat"] = 6], so that
    [idf = log(2 / 7) + 1] is negative; a seventh occurrence of "cat" in
    doc_0, with everything else unchanged, lowers the score of doc_0 for the
    query [["cat"]]. *)
Lemma more_occurrences_lower_score_when_overcounted :
  let self := add_documents init (repeat (mkCall "doc_0" "" "" "cat") 6) in
  let P := [("doc_0", [0; 0; 0; 0; 0; 0])] in
  exists s1 s2 : R,
    (get "cat" (index self) = Some P /\
     get "cat" (doc_freq self) = Some 6 /\
     List.length (documents self) = 1) /\
    In ("doc_0", s1)
       (@compute_tfidf_scores RealArith.RealOps ["cat"]
          (index self) (doc_freq self) (documents self) 10) /\
    In ("doc_0", s2)
       (@compute_tfidf_scores RealArith.RealOps ["cat"]
          (set "cat" (set "doc_0" [0; 0; 0; 0; 0; 0; 0] P) (index self))
          (doc_freq self) (documents self) 10) /\
    (s2 < s1)%R.
Proof.
  intros self P.
  assert (Hmeta : get "doc_0" (documents self)
                  = Some (mkDocMeta (Some "") (Some "") (Some "cat") (Some 1)))
    by (vm_compute; reflexivity).
  assert (HP : get "cat" (index self) = Some P) by (vm_compute; reflexivity).
  assert (Hdf : get_default "cat" 0 (doc_freq self) = 6)
    by (vm_compute; reflexivity).
  assert (Hn : List.length (documents self) = 1) by (vm_compute; reflexivity).
  assert (HwfP : wf P) by IndexerFacts.distinct_ids.
  pose proof (@single_term_present RealArith.RealOps
                (index self) (doc_freq self) (documents self)
                "cat" "doc_0" P [0; 0; 0; 0; 0; 0] _ 10 HwfP HP eq_refl Hmeta
                ltac:(vm_compute; discriminate)) as H1.
  pose proof (@single_term_present RealArith.RealOps
                (set "cat" (set "doc_0" [0; 0; 0; 0; 0; 0; 0] P) (index self))
                (doc_freq self) (documents self)
                "cat" "doc_0" (set "doc_0" [0; 0; 0; 0; 0; 0; 0] P)
                [0; 0; 0; 0; 0; 0; 0] _ 10
                (wf_set _ _ _ HwfP) (get_set_eq _ _ _) (get_set_eq _ _ _)
                Hmeta ltac:(vm_compute; discriminate)) as H2.
  assert (Hdf' : get "cat" (doc_freq self) = Some 6)
    by (vm_compute; reflexivity).
  eexists. eexists.
  split; [exact (conj HP (conj Hdf' Hn))|].
  split; [exact H1|]. split; [exact H2|].
  unfold idf_of. rewrite Hdf, Hn.
  change (doc_length_of
            (mkDocMeta (Some "") (Some "") (Some "cat") (Some 1))) with 1.
  cbn [fadd fmul truediv math_log fzero fone RealArith.RealOps
       List.length Nat.add].
  pose proof idf_negative_when_overcounted as Hidf.
  assert (H6 : (INR 6 / INR 1 = 6)%R)
    by (rewrite !INR_IZR_INZ; simpl Z.of_nat; lra).
  assert (H7 : (INR 7 / INR 1 = 7)%R)
    by (rewrite !INR_IZR_INZ; simpl Z.of_nat; lra).
  rewrite H6, H7. nra.
Qed.

(** A witness for C6: in the two-document example, "cat" occurs at one more
    position of doc_0. *)
Lemma more_occurrences_never_lower_score_witness :
  let calls := [mkCall "doc_0" "D0" "u0" "The cat sat on the mat";
                mkCall "doc_1" "D1" "u1" "Dogs chase cats"] in
  let self := add_documents init calls in
  let P := [("doc_0", [0]); ("doc_1", [2])] in
  exists s1 s2 : R,
    In ("doc_0", s1)
       (@compute_tfidf_scores RealArith.RealOps ["cat"]
          (index self) (doc_freq self) (documents self) 10) /\
    In ("doc_0", s2)
       (@compute_tfidf_scores RealArith.RealOps ["cat"]
          (set "cat" (set "doc_0" [0; 1] P) (index self))
          (doc_freq self) (documents self) 10) /\
    (s1 <= s2)%R.
Proof.
  intros calls self P.
  assert (Hmeta : get "doc_0" (documents self)
                  = Some (mkDocMeta (Some "D0") (Some "u0")
                            (Some "The cat sat on the mat") (Some 3)))
    by (vm_compute; reflexivity).
  assert (HP : get "cat" (index self) = Some P) by (vm_compute; reflexivity).
  assert (HwfP : wf P) by IndexerFacts.distinct_ids.
  pose proof (@single_term_present RealArith.RealOps
                (index self) (doc_freq self) (documents self)
                "cat" "doc_0" P [0] _ 10 HwfP HP eq_refl Hmeta
                ltac:(vm_compute; discriminate)) as H1.
  pose proof (@single_term_present RealArith.RealOps
                (set "cat" (set "doc_0" [0; 1] P) (index self))
                (doc_freq self) (documents self)
                "cat" "doc_0" (set "doc_0" [0; 1] P) [0; 1] _ 10
                (wf_set _ _ _ HwfP) (get_set_eq _ _ _) (get_set_eq _ _ _)
                Hmeta ltac:(vm_compute; discriminate)) as H2.
  eexists. eexists. split; [exact H1|]. split; [exact H2|].
  apply RealArithFacts.fle_real.
  apply (@more_occurrences_never_lower_score
           RealArith.RealOps RealArithFacts.RealMonotone
           (index self) (doc_freq self) (documents self)
           "cat" "doc_0" P [0] [0; 1] 10 10 _ _
           (consistent_doc_freq_le _ _ _ _ _
              (reachable_consistent calls ltac:(IndexerFacts.distinct_ids)) HP)
           HwfP HP eq_refl ltac:(vm_compute; lia) H1 H2).
Defined.

End RankerFacts.

(** ** The query engine *)

Module SearchEngineFacts.
Import PyStr Dict Indexer Ranker SearchEngine RankerFacts.

Section WithFloats.
Context `{F : FloatOps}.

Lemma lstrip_all_space (s : string) :
  forallb_chars is_space s = true -> lstrip s = EmptyString.
Proof.
  induction s as [|c r IH]; simpl; [reflexivity|].
  intro H. apply andb_true_iff in H as [Hc Hr]. rewrite Hc. now apply IH.
Qed.

Lemma strip_all_space (s : string) :
  forallb_chars is_space s = true -> strip s = EmptyString.
Proof. intro H. unfold strip. now rewrite lstrip_all_space. Qed.

(** [search] on a query that passes both guards. *)
Lemma search_ranked (indexer : Indexer) (query : string) (top_k : Z) c r t ts :
  strip query = String c r ->
  Preprocessor.tokenize query = t :: ts ->
  search indexer query top_k
  = map (enrich (documents indexer))
        (compute_tfidf_scores (t :: ts) (index indexer) (doc_freq indexer)
                              (documents indexer) top_k).
Proof. intros Hs Ht. unfold search. now rewrite Hs, Ht. Qed.

Lemma search_cases (indexer : Indexer) (query : string) :
  (forall top_k, search indexer query top_k = []) \/
  exists query_tokens,
    forall top_k,
      search indexer query top_k
      = map (enrich (documents indexer))
            (compute_tfidf_scores query_tokens (index indexer)
               (doc_freq indexer) (documents indexer) top_k).
Proof.
  unfold search. destruct (strip query) as [|c r]; [now left|].
  destruct (Preprocessor.tokenize query) as [|t ts]; [now left|].
  right. now exists (t :: ts).
Qed.

(** On the two-document example both documents match "cat": [search] returns
    [k] results up to [k = 2], and two from there on. *)
Lemma example_search_length (k : Z) :
  (0 <= k)%Z ->
  let self := build_from_crawled_data init
                [mkPage (Some "D0") (Some "u0") (Some "The cat sat on the mat");
                 mkPage (Some "D1") (Some "u1") (Some "Dogs chase cats")] in
  List.length (search self "cat" k) = Nat.min (Z.to_nat k) 2.
Proof.
  intros Hk self.
  rewrite (search_ranked self "cat" k "c"%char "at" "cat" [] eq_refl eq_refl).
  unfold compute_tfidf_scores.
  rewrite slice_to_nonneg, length_map, length_firstn, sorted_desc_length by lia.
  reflexivity.
Qed.

(** C3. For a fixed index, query and [k >= 0], [search(q, k)] has at most [k]
    results and is a prefix of [search(q, k + 1)]. *)
Theorem search_top_k_prefix (indexer : Indexer) (query : string) (k : Z) :
  (0 <= k)%Z ->
  (Z.of_nat (List.length (search indexer query k)) <= k)%Z /\
  exists rest,
    search indexer query (k + 1) = search indexer query k ++ rest.
Proof.
  intro Hk.
  destruct (search_cases indexer query) as [Hnil | [q Hq]].
  - rewrite !Hnil. split; [simpl; lia | now exists []].
  - rewrite !Hq. unfold compute_tfidf_scores.
    rewrite !slice_to_nonneg by lia. split.
    + rewrite length_map.
      pose proof (firstn_le_length (Z.to_nat k)
                    (sorted_desc (score_terms (index indexer) (doc_freq indexer)
                                    (documents indexer) q []))).
      lia.
    + replace (Z.to_nat (k + 1)) with (S (Z.to_nat k)) by lia.
      destruct (firstn_succ_app (Z.to_nat k)
                  (sorted_desc (score_terms (index indexer) (doc_freq indexer)
                                  (documents indexer) q []))) as [rest Hrest].
      exists (map (enrich (documents indexer)) rest).
      now rewrite Hrest, map_app.
Qed.

(** C7. For every index state and every [top_k], [search] returns the empty
    list when the query is the empty string, when it consists of whitespace
    only, and when [tokenize] finds no term in it. *)
Theorem search_empty_query (indexer : Indexer) (query : string) (top_k : Z) :
  query = EmptyString \/
  forallb_chars is_space query = true \/
  Preprocessor.tokenize query = [] ->
  search indexer query top_k = [].
Proof.
  unfold search. intros [-> | [Hsp | Htok]].
  - reflexivity.
  - now rewrite strip_all_space.
  - rewrite Htok. now destruct (strip query).
Qed.

(** C8. What the code does with a negative [top_k]: on the two-document
    example both documents match "cat"; [top_k = -1] returns the first of the
    two results, and [top_k = -2] returns none. *)
Theorem search_negative_top_k :
  let self := build_from_crawled_data init
                [mkPage (Some "D0") (Some "u0") (Some "The cat sat on the mat");
                 mkPage (Some "D1") (Some "u1") (Some "Dogs chase cats")] in
  List.length (search self "cat" 10) = 2 /\
  List.length (search self "cat" (-1)) = 1 /\
  search self "cat" (-1) = firstn 1 (search self "cat" 10) /\
  search self "cat" (-2) = [].
Proof.
  intro self.
  assert (Hq : forall k,
             search self "cat" k
             = map (enrich (documents self))
                   (compute_tfidf_scores ["cat"] (index self) (doc_freq self)
                                         (documents self) k))
    by (intro k; now apply (search_ranked self "cat" k "c"%char "at" "cat" [])).
  assert (Hlen : List.length
                   (sorted_desc (score_terms (index self) (doc_freq self)
                                   (documents self) ["cat"] [])) = 2)
    by (rewrite sorted_desc_length; vm_compute; reflexivity).
  rewrite !Hq. unfold compute_tfidf_scores, slice_to. rewrite Hlen.
  cbn [Z.ltb Z.compare Z.abs_nat Z.to_nat Pos.to_nat Pos.iter_op Nat.add
       Nat.sub].
  repeat split.
  - rewrite length_map, firstn_all2 by lia. exact Hlen.
  - rewrite length_map, length_firstn, Hlen. reflexivity.
  - rewrite <- firstn_map. f_equal.
    now rewrite firstn_all2 by lia.
Qed.

End WithFloats.

(** A witness for C3: on the two-document example the query "cat" matches
    both documents; [search("cat", 1)] is the first of the two results of
    [search("cat", 2)]. *)
Lemma search_top_k_prefix_witness :
  let self := build_from_crawled_data init
                [mkPage (Some "D0") (Some "u0") (Some "The cat sat on the mat");
                 mkPage (Some "D1") (Some "u1") (Some "Dogs chase cats")] in
  List.length (@search RealArith.RealOps self "cat" 1) = 1 /\
  List.length (@search RealArith.RealOps self "cat" (1 + 1)) = 2 /\
  (Z.of_nat (List.length (@search RealArith.RealOps self "cat" 1)) <= 1)%Z /\
  exists rest,
    @search RealArith.RealOps self "cat" (1 + 1)
    = @search RealArith.RealOps self "cat" 1 ++ rest.
Proof.
  intro self.
  split; [exact (@example_search_length RealArith.RealOps 1 ltac:(lia))|].
  split; [exact (@example_search_length RealArith.RealOps (1 + 1) ltac:(lia))|].
  apply (@search_top_k_prefix RealArith.RealOps self "cat" 1). lia.
Defined.

Lemma search_empty_query_witness :
  @search RealArith.RealOps init "" 10 = [] /\
  @search RealArith.RealOps init "   " 10 = [] /\
  @search RealArith.RealOps init "the and of" 10 = [].
Proof.
  split; [|split].
  - apply (@search_empty_query RealArith.RealOps init "" 10). now left.
  - apply (@search_empty_query RealArith.RealOps init "   " 10).
    right; left. reflexivity.
  - apply (@search_empty_query RealArith.RealOps init "the and of" 10).
    right; right. reflexivity.
Defined.

End SearchEngineFacts.

(** * Further properties of the code *)

(** ** What [add_document] stores *)

Module IndexContents.
Import Dict DictFacts Indexer IndexerFacts.

(** The zero-based positions at which [t] stands in the token list [T],
    counted from [i]. *)
Fixpoint occurrences_from (i : nat) (t : string) (T : list string) : list nat :=
  match T with
  | [] => []
  | x :: r =>
      if String.eqb x t then i :: occurrences_from (S i) t r
      else occurrences_from (S i) t r
  end.

Definition occurrences (t : string) (T : list string) : list nat :=
  occurrences_from 0 t T.

(** The positions of [t] that the calls made under doc_id [d] contribute, call
    after call. *)
Definition contributed (t d : string) (calls : list Call) : list nat :=
  flat_map (fun c => if String.eqb (c_doc_id c) d
                     then occurrences t (Preprocessor.tokenize (c_text c))
                     else [])
           calls.

(** The entry that [add_document] stores in [documents]. *)
Definition meta_of (c : Call) : DocMeta :=
  mkDocMeta (Some (c_title c)) (Some (c_url c))
            (Some (_make_snippet (c_text c) SNIPPET_LENGTH))
            (Some (List.length (Preprocessor.tokenize (c_text c)))).

(** A position list extended by [more]; an entry is created only when there
    is something to store. *)
Definition extend (old : option (list nat)) (more : list nat)
    : option (list nat) :=
  match more with
  | [] => old
  | _ => Some (match old with Some ps => ps | None => [] end ++ more)
  end.

Lemma extend_extend old more1 more2 :
  extend (extend old more1) more2 = extend old (more1 ++ more2).
Proof.
  destruct more1 as [|p1 r1]; [reflexivity|].
  destruct more2 as [|p2 r2]; simpl.
  - now rewrite app_nil_r.
  - now rewrite <- app_assoc.
Qed.

Lemma positions_index_tokens doc_id tokens :
  forall n s t d,
    positions (l_index (index_tokens doc_id n tokens s)) t d
    = if String.eqb d doc_id
      then extend (positions (l_index s) t doc_id) (occurrences_from n t tokens)
      else positions (l_index s) t d.
Proof.
  induction tokens as [|x r IH]; intros n s t d; cbn [index_tokens occurrences_from].
  - destruct (String.eqb_spec d doc_id) as [->|]; reflexivity.
  - rewrite IH, !positions_index_token, String.eqb_refl, andb_true_r.
    rewrite (String.eqb_sym x t).
    destruct (String.eqb_spec d doc_id) as [->|Hd];
      [|now rewrite andb_false_r].
    destruct (String.eqb_spec t x) as [->|Hne]; [|reflexivity].
    change (Some (match positions (l_index s) x doc_id with
                  | Some ps => ps
                  | None => []
                  end ++ [n]))
      with (extend (positions (l_index s) x doc_id) [n]).
    apply extend_extend.
Qed.

Lemma positions_add_call (self : Indexer) (c : Call) (t d : string) :
  positions (index (add_call self c)) t d
  = extend (positions (index self) t d) (contributed t d [c]).
Proof.
  unfold add_call, add_document, contributed. cbn [index flat_map].
  rewrite positions_index_tokens, app_nil_r. cbn [l_index].
  rewrite (String.eqb_sym (c_doc_id c) d).
  destruct (String.eqb_spec d (c_doc_id c)) as [->|]; reflexivity.
Qed.

Lemma contributed_cons t d c calls :
  contributed t d (c :: calls) = contributed t d [c] ++ contributed t d calls.
Proof. unfold contributed. cbn [flat_map]. now rewrite app_nil_r. Qed.

Lemma positions_add_documents (calls : list Call) :
  forall self t d,
    positions (index (add_documents self calls)) t d
    = extend (positions (index self) t d) (contributed t d calls).
Proof.
  induction calls as [|c r IH]; intros self t d; [reflexivity|].
  cbn [add_documents fold_left]. fold (add_documents (add_call self c) r).
  now rewrite IH, positions_add_call, extend_extend, <- contributed_cons.
Qed.

(** X1. After any sequence of [add_document] calls on a freshly constructed
    [Indexer], [index[t][d]] is exactly the list of the positions at which [t]
    stands in the token sequences of the texts added under doc_id [d], call
    after call; the entry is absent exactly when [t] stands in none of them. *)
Theorem index_lists_all_occurrences (calls : list Call) (t d : string) :
  positions (index (add_documents init calls)) t d
  = match contributed t d calls with
    | [] => None
    | ps => Some ps
    end.
Proof.
  rewrite positions_add_documents. unfold extend.
  change (positions (index init) t d) with (@None (list nat)).
  now destruct (contributed t d calls).
Qed.

(** *** The bulk build *)

Lemma contributed_calls_from t (pages : list Page) :
  forall j i,
    contributed t (doc_id_of i) (calls_from j pages)
    = match (if j <=? i then nth_error pages (i - j) else None) with
      | Some page =>
          occurrences t (Preprocessor.tokenize (c_text (call_of_page i page)))
      | None => []
      end.
Proof.
  induction pages as [|page r IH]; intros j i.
  - destruct (j <=? i); [now destruct (i - j) | reflexivity].
  - cbn [calls_from]. rewrite contributed_cons, IH.
    unfold contributed at 1. cbn [flat_map c_doc_id call_of_page].
    rewrite app_nil_r.
    destruct (String.eqb_spec (doc_id_of j) (doc_id_of i)) as [E|E].
    + apply doc_id_of_inj in E. subst j.
      rewrite Nat.leb_refl, Nat.sub_diag.
      destruct (S i <=? i) eqn:Hle; [apply Nat.leb_le in Hle; lia|].
      cbn [nth_error]. now rewrite app_nil_r.
    + assert (Hji : j <> i) by congruence.
      destruct (j <=? i) eqn:Hle.
      * apply Nat.leb_le in Hle.
        assert (Hs : (S j <=? i) = true) by (apply Nat.leb_le; lia).
        rewrite Hs. replace (i - j) with (S (i - S j)) by lia. reflexivity.
      * apply Nat.leb_gt in Hle.
        assert (Hs : (S j <=? i) = false) by (apply Nat.leb_gt; lia).
        now rewrite Hs.
Qed.

(** X2. In an index built by [build_from_crawled_data] on a freshly
    constructed [Indexer], the entry of term [t] for the page at index [i] of
    the input is exactly the list of the positions of [t] in the tokens of
    that page's text; it is absent when [t] is not one of them. *)
Theorem build_lists_occurrences_of_page (pages : list Page) (i : nat)
    (page : Page) (t : string) :
  nth_error pages i = Some page ->
  positions (index (build_from_crawled_data init pages)) t (doc_id_of i)
  = match occurrences t (Preprocessor.tokenize
                           (match page_text page with
                            | Some x => x
                            | None => ""
                            end)) with
    | [] => None
    | ps => Some ps
    end.
Proof.
  intro Hnth. unfold build_from_crawled_data.
  rewrite build_loop_calls, positions_add_documents, contributed_calls_from.
  cbn [Nat.leb]. rewrite Nat.sub_0_r, Hnth. unfold extend.
  change (positions (index init) t (doc_id_of i)) with (@None (list nat)).
  cbn [call_of_page c_text].
  now destruct (occurrences t _).
Qed.

Lemma build_lists_occurrences_of_page_witness :
  positions
    (index (build_from_crawled_data init
              [mkPage (Some "D0") (Some "u0") (Some "The cat sat on the cat");
               mkPage (Some "D1") (Some "u1") (Some "Dogs chase cats")]))
    "cat" (doc_id_of 0)
  = Some [0; 2].
Proof.
  apply (build_lists_occurrences_of_page
           [mkPage (Some "D0") (Some "u0") (Some "The cat sat on the cat");
            mkPage (Some "D1") (Some "u1") (Some "Dogs chase cats")]
           0 (mkPage (Some "D0") (Some "u0") (Some "The cat sat on the cat"))
           "cat" eq_refl).
Defined.

(** *** The keys of the index and of the document-frequency table *)

Lemma mem_keys_eq {V W : Type} (k : string) (d1 : dict V) (d2 : dict W) :
  keys d1 = keys d2 -> mem k d1 = mem k d2.
Proof.
  intro H. destruct (mem k d2) eqn:E.
  - apply mem_true_iff. rewrite H. now apply mem_true_iff.
  - apply mem_false_iff. rewrite H. now apply mem_false_iff.
Qed.

(** The index and the document-frequency table list the same terms in the
    same order, and every term seen in the current document is among them. *)
Definition keys_agree (s : LoopState) : Prop :=
  keys (l_doc_freq s) = keys (l_index s) /\
  wf (l_index s) /\
  forall t, PyStr.mem t (l_seen s) = true -> mem t (l_index s) = true.

Lemma keys_agree_step doc_id n token s :
  keys_agree s -> keys_agree (index_token doc_id n token s).
Proof.
  intros (Hk & Hwf & Hseen). unfold keys_agree.
  rewrite index_token_doc_freq, index_token_index, index_token_seen.
  split; [|split].
  - rewrite (keys_set token _ (l_index s)).
    destruct (PyStr.mem token (l_seen s)) eqn:Es.
    + now rewrite (Hseen _ Es).
    + rewrite keys_set, (mem_keys_eq token _ _ Hk), Hk. reflexivity.
  - now apply wf_set.
  - intros t Ht. rewrite mem_set.
    destruct (String.eqb_spec t token) as [->|Hne]; [reflexivity|].
    cbn [orb]. apply Hseen.
    destruct (PyStr.mem token (l_seen s)); [exact Ht|].
    unfold PyStr.mem in Ht. cbn [existsb] in Ht.
    destruct (String.eqb_spec t token); [congruence | exact Ht].
Qed.

Lemma keys_agree_run doc_id tokens :
  forall n s, keys_agree s -> keys_agree (index_tokens doc_id n tokens s).
Proof.
  induction tokens as [|t r IH]; intros n s H; [exact H|].
  apply IH, keys_agree_step, H.
Qed.

Lemma mem_index_tokens doc_id tokens :
  forall n s t,
    mem t (l_index (index_tokens doc_id n tokens s))
    = (mem t (l_index s) || PyStr.mem t tokens)%bool.
Proof.
  induction tokens as [|x r IH]; intros n s t; cbn [index_tokens].
  - unfold PyStr.mem. cbn [existsb]. now rewrite orb_false_r.
  - rewrite IH, index_token_index, mem_set.
    unfold PyStr.mem. cbn [existsb].
    destruct (String.eqb t x), (mem t (l_index s)); reflexivity.
Qed.

Lemma pystr_mem_In (t : string) (l : list string) :
  PyStr.mem t l = true <-> In t l.
Proof.
  unfold PyStr.mem. rewrite existsb_exists. split.
  - intros (x & Hx & E). apply String.eqb_eq in E. now subst.
  - intro H. exists t. now rewrite String.eqb_refl.
Qed.

Lemma keys_add_documents (calls : list Call) :
  forall self,
    keys (doc_freq self) = keys (index self) ->
    wf (index self) ->
    (keys (doc_freq (add_documents self calls))
     = keys (index (add_documents self calls)) /\
     wf (index (add_documents self calls))) /\
    forall t,
      mem t (index (add_documents self calls))
      = (mem t (index self)
         || existsb (fun c => PyStr.mem t (Preprocessor.tokenize (c_text c)))
                    calls)%bool.
Proof.
  induction calls as [|c r IH]; intros self Hk Hwf.
  - split; [now split|]. intro t. cbn. now rewrite orb_false_r.
  - cbn [add_documents fold_left]. fold (add_documents (add_call self c) r).
    assert (Hrun : keys_agree
                     (index_tokens (c_doc_id c) 0
                        (Preprocessor.tokenize (c_text c))
                        (mkLoop (index self) (doc_freq self) [])))
      by (apply keys_agree_run; repeat split; [exact Hk | exact Hwf
                                               | discriminate]).
    destruct Hrun as (Hk' & Hwf' & _).
    destruct (IH (add_call self c) Hk' Hwf') as [Hkw Hmem].
    split; [exact Hkw|]. intro t. rewrite Hmem.
    unfold add_call at 1, add_document. cbn [index existsb].
    rewrite mem_index_tokens. cbn [l_index]. now rewrite orb_assoc.
Qed.

Lemma index_key_iff_token (calls : list Call) (t : string) :
  In t (keys (index (add_documents init calls))) <->
  exists c, In c calls /\ In t (Preprocessor.tokenize (c_text c)).
Proof.
  destruct (keys_add_documents calls init eq_refl (NoDup_nil _)) as [_ Hmem].
  rewrite <- mem_true_iff, Hmem. cbn [index init mem get orb].
  rewrite existsb_exists. split.
  - intros (c & Hc & Ht). exists c. split; [exact Hc | now apply pystr_mem_In].
  - intros (c & Hc & Ht). exists c. split; [exact Hc | now apply pystr_mem_In].
Qed.

(** X3. After any sequence of [add_document] calls on a freshly constructed
    [Indexer], the index and the document-frequency table hold the same
    terms in the same order, without repetition, and a term is a key exactly
    when it is a token of one of the added texts. *)
Theorem index_keys_are_the_tokens (calls : list Call) :
  keys (doc_freq (add_documents init calls))
  = keys (index (add_documents init calls)) /\
  NoDup (keys (index (add_documents init calls))) /\
  forall t,
    In t (keys (index (add_documents init calls))) <->
    exists c, In c calls /\ In t (Preprocessor.tokenize (c_text c)).
Proof.
  destruct (keys_add_documents calls init eq_refl (NoDup_nil _))
    as [[Hk Hwf] _].
  split; [exact Hk|]. split; [exact Hwf|].
  intro t. apply index_key_iff_token.
Qed.

(** *** The document store *)

Lemma find_snoc {A : Type} (f : A -> bool) (l : list A) (x : A) :
  find f (l ++ [x])
  = match find f l with
    | Some y => Some y
    | None => if f x then Some x else None
    end.
Proof.
  induction l as [|y r IH]; simpl; [reflexivity|].
  destruct (f y); [reflexivity | exact IH].
Qed.

Lemma documents_add_documents (calls : list Call) :
  forall self d,
    get d (documents (add_documents self calls))
    = match find (fun c => String.eqb (c_doc_id c) d) (List.rev calls) with
      | Some c => Some (meta_of c)
      | None => get d (documents self)
      end.
Proof.
  induction calls as [|c r IH]; intros self d; [reflexivity|].
  cbn [add_documents fold_left]. fold (add_documents (add_call self c) r).
  rewrite IH. cbn [List.rev]. rewrite find_snoc.
  destruct (find _ (List.rev r)); [reflexivity|].
  unfold add_call, add_document. cbn [documents]. fold (meta_of c).
  destruct (String.eqb_spec (c_doc_id c) d) as [<-|Hne].
  - apply get_set_eq.
  - now apply get_set_neq.
Qed.

(** X4. After any sequence of [add_document] calls on a freshly constructed
    [Indexer], the entry of [documents] for a doc_id is the one written by the
    most recent call with that doc_id (its title, its url, the snippet of its
    text and the number of its tokens), and a doc_id that was never added has
    no entry. *)
Theorem documents_hold_latest_call (calls : list Call) (d : string) :
  get d (documents (add_documents init calls))
  = match find (fun c => String.eqb (c_doc_id c) d) (List.rev calls) with
    | Some c =>
        Some (mkDocMeta (Some (c_title c)) (Some (c_url c))
                (Some (_make_snippet (c_text c) SNIPPET_LENGTH))
                (Some (List.length (Preprocessor.tokenize (c_text c)))))
    | None => None
    end.
Proof.
  rewrite documents_add_documents.
  now destruct (find _ (List.rev calls)).
Qed.

(** *** Statistics *)

(** [page.get("text", "")] *)
Definition page_text_or_empty (page : Page) : string :=
  match page_text page with Some x => x | None => "" end.

Lemma calls_from_tokens (pages : list Page) (t : string) :
  forall j,
    (exists c, In c (calls_from j pages) /\
               In t (Preprocessor.tokenize (c_text c))) <->
    In t (flat_map (fun page => Preprocessor.tokenize (page_text_or_empty page))
                   pages).
Proof.
  induction pages as [|page r IH]; intro j; cbn [calls_from flat_map].
  - split; [intros (c & [] & _) | intros []].
  - rewrite in_app_iff, <- (IH (S j)). split.
    + intros (c & [<-|Hc] & Ht); [now left | right; eauto].
    + intros [Ht | (c & Hc & Ht)].
      * exists (call_of_page j page). split; [now left | exact Ht].
      * exists c. split; [now right | exact Ht].
Qed.

(** X5. After [build_from_crawled_data] on a freshly constructed [Indexer],
    [index_stats] reports as many documents as there are pages in the input
    and as many terms as there are distinct tokens in their texts. *)
Theorem index_stats_after_build (pages : list Page) :
  SearchEngine.index_stats (build_from_crawled_data init pages)
  = (List.length pages,
     List.length
       (nodup string_dec
          (flat_map (fun page => Preprocessor.tokenize (page_text_or_empty page))
                    pages))).
Proof.
  unfold SearchEngine.index_stats, build_from_crawled_data.
  rewrite build_loop_calls. f_equal.
  - assert (Hnd : NoDup (map c_doc_id (calls_from 0 pages)))
      by (rewrite calls_from_ids; apply doc_ids_distinct).
    pose proof (si_keys _ _ (state_inv_fresh _ Hnd)) as Hk.
    unfold keys in Hk.
    rewrite <- (length_map fst), Hk.
    now rewrite calls_from_ids, length_map, length_seq.
  - destruct (keys_add_documents (calls_from 0 pages) init eq_refl
                (NoDup_nil _)) as [[_ Hwf] _].
    rewrite <- (length_map fst). apply Permutation_length.
    apply NoDup_Permutation; [exact Hwf | apply NoDup_nodup|].
    intro t. rewrite nodup_In, <- (calls_from_tokens pages t 0).
    apply index_key_iff_token.
Qed.

End IndexContents.

(** ** Snippets *)

Module SnippetFacts.
Import PyStr Indexer.

Lemma take_0 (s : string) : take 0 s = EmptyString.
Proof. now destruct s. Qed.

Lemma take_cons (n : nat) (c : ascii) (s : string) :
  take (S n) (String c s) = String c (take n s).
Proof. reflexivity. Qed.

Lemma take_length_le (n : nat) (s : string) :
  n <= String.length s -> String.length (take n s) = n.
Proof.
  revert n. induction s as [|c r IH]; intros [|n] H;
    cbn [String.length] in *; try reflexivity; try lia.
  rewrite take_cons. cbn [String.length]. rewrite IH; lia.
Qed.

Lemma take_prefix (n : nat) (s : string) :
  exists rest, s = (take n s ++ rest)%string.
Proof.
  revert n. induction s as [|c r IH]; intros [|n].
  - now exists EmptyString.
  - now exists EmptyString.
  - now exists (String c r).
  - destruct (IH n) as [rest Hrest]. exists rest.
    rewrite take_cons. cbn [append]. now rewrite <- Hrest.
Qed.

Lemma take_app (n : nat) (a b : string) :
  take (String.length a + n) (a ++ b) = (a ++ take n b)%string.
Proof.
  induction a as [|c r IH]; [reflexivity|].
  cbn [String.length append Nat.add]. now rewrite take_cons, IH.
Qed.

Lemma take_app_all (a b : string) : take (String.length a) (a ++ b) = a.
Proof.
  induction a as [|c r IH]; [apply take_0|].
  cbn [String.length append]. now rewrite take_cons, IH.
Qed.

Lemma get_app_l (n : nat) (a b : string) :
  n < String.length a -> String.get n (a ++ b) = String.get n a.
Proof.
  revert n. induction a as [|c r IH]; intros n H; simpl in *; [lia|].
  destruct n as [|n]; [reflexivity|]. apply IH. lia.
Qed.

Lemma get_app_r (n : nat) (a b : string) :
  String.get (String.length a + n) (a ++ b) = String.get n b.
Proof. induction a as [|c r IH]; simpl; [reflexivity | exact IH]. Qed.

Lemma get_no_space (w : string) (n : nat) :
  forallb_chars (fun c => negb (is_space c)) w = true ->
  String.get n w <> Some " "%char.
Proof.
  revert n. induction w as [|c r IH]; intros n H; simpl in *;
    [discriminate|].
  apply andb_true_iff in H as [Hc Hr].
  destruct n as [|n]; [|now apply IH].
  intros [= ->]. discriminate.
Qed.

(** What [rfind] returns: the last index below [stop] that holds a space. *)
Lemma rfind_space_from_spec (text : string) :
  forall i stop,
    match rfind_space_from i stop text with
    | Some j =>
        i <= j < stop /\
        String.get (j - i) text = Some " "%char /\
        forall k, j < k < stop -> String.get (k - i) text <> Some " "%char
    | None =>
        forall k, i <= k < stop -> String.get (k - i) text <> Some " "%char
    end.
Proof.
  induction text as [|c r IH]; intros i stop; cbn [rfind_space_from].
  - intros k _. now destruct (k - i).
  - destruct (stop <=? i) eqn:Hstop.
    + apply Nat.leb_le in Hstop. intros k Hk. lia.
    + apply Nat.leb_gt in Hstop. specialize (IH (S i) stop).
      destruct (rfind_space_from (S i) stop r) as [j|].
      * destruct IH as (Hj & Hget & Hlast). split; [lia|]. split.
        -- replace (j - i) with (S (j - S i)) by lia. exact Hget.
        -- intros k Hk. replace (k - i) with (S (k - S i)) by lia.
           apply Hlast. lia.
      * destruct (Ascii.eqb_spec c " "%char) as [->|Hc].
        -- split; [lia|]. split; [now rewrite Nat.sub_diag|].
           intros k Hk. replace (k - i) with (S (k - S i)) by lia.
           apply IH. lia.
        -- intros k Hk. destruct (Nat.eq_dec k i) as [->|Hne].
           ++ rewrite Nat.sub_diag. simpl. congruence.
           ++ replace (k - i) with (S (k - S i)) by lia. apply IH. lia.
Qed.

Lemma length_append (a b : string) :
  String.length (a ++ b) = String.length a + String.length b.
Proof. induction a as [|c r IH]; simpl; [reflexivity | now rewrite IH]. Qed.

Lemma take_app_le (n : nat) (a b : string) :
  n <= String.length a -> take n (a ++ b) = take n a.
Proof.
  revert n. induction a as [|c r IH]; intros [|n] H;
    cbn [String.length append] in *; try lia.
  - now rewrite !take_0.
  - now rewrite !take_0.
  - rewrite !take_cons, IH by lia. reflexivity.
Qed.

Definition no_space (w : string) : Prop :=
  forallb_chars (fun c => negb (is_space c)) w = true.

Lemma split_no_space (text : string) : Forall no_space (split text).
Proof.
  apply (PreprocessorFacts.split_aux_chars (fun c => negb (is_space c)));
    [reflexivity|].
  induction text as [|c r IH]; simpl; [reflexivity|].
  rewrite IH. now destruct (is_space c).
Qed.

Lemma join_space_cons (w w2 : string) (r : list string) :
  join_space (w :: w2 :: r)
  = (w ++ String " "%char (join_space (w2 :: r)))%string.
Proof. reflexivity. Qed.

(** A space of the joined text stands between two words: the text before it
    is the join of the words before it. *)
Lemma join_space_boundary (ws : list string) :
  Forall no_space ws ->
  forall j,
    String.get j (join_space ws) = Some " "%char ->
    exists m,
      0 < m < List.length ws /\
      take j (join_space ws) = join_space (firstn m ws) /\
      String.length (join_space (firstn m ws)) = j.
Proof.
  induction 1 as [|w r Hw Hr IH]; intros j Hj.
  - now destruct j.
  - destruct r as [|w2 r'].
    + exfalso. exact (get_no_space w j Hw Hj).
    + rewrite join_space_cons in *.
      destruct (Nat.lt_trichotomy j (String.length w)) as [Hlt|[->|Hgt]].
      * exfalso. rewrite get_app_l in Hj by exact Hlt.
        exact (get_no_space w j Hw Hj).
      * exists 1. split; [cbn [List.length]; lia|].
        cbn [firstn join_space]. split; [apply take_app_all | reflexivity].
      * replace j with (String.length w + S (j - String.length w - 1)) in *
          by lia.
        set (j' := j - String.length w - 1) in *.
        rewrite get_app_r in Hj. cbn [String.get] in Hj.
        destruct (IH j' Hj) as (m & Hm & Htake & Hlen).
        exists (S m). split; [cbn [List.length] in *; lia|].
        rewrite take_app, take_cons, Htake.
        destruct m as [|m]; [lia|].
        cbn [firstn]. rewrite join_space_cons. split; [reflexivity|].
        rewrite length_append. cbn [String.length].
        cbn [firstn] in Hlen. rewrite Hlen. reflexivity.
Qed.

(** The end of the join of the first [m] words holds a space when more words
    follow. *)
Lemma join_space_separator (ws : list string) :
  forall m,
    0 < m < List.length ws ->
    String.get (String.length (join_space (firstn m ws))) (join_space ws)
    = Some " "%char.
Proof.
  induction ws as [|w r IH]; intros m Hm; cbn [List.length] in Hm; [lia|].
  destruct r as [|w2 r']; [cbn [List.length] in Hm; lia|].
  destruct m as [|[|m]]; [lia| |].
  - cbn [firstn join_space].
    rewrite <- (Nat.add_0_r (String.length w)) at 1.
    now rewrite get_app_r.
  - change (firstn (S (S m)) (w :: w2 :: r'))
      with (w :: firstn (S m) (w2 :: r')).
    cbn [firstn]. rewrite !join_space_cons.
    rewrite length_append. cbn [String.length].
    rewrite get_app_r. cbn [String.get].
    apply (IH (S m)). cbn [List.length] in *. lia.
Qed.

Lemma join_space_firstn_all (ws : list string) (m : nat) :
  List.length ws <= m -> join_space (firstn m ws) = join_space ws.
Proof. intro H. now rewrite firstn_all2. Qed.

Lemma append_assoc (a b c : string) :
  ((a ++ b) ++ c)%string = (a ++ (b ++ c))%string.
Proof. induction a as [|x r IH]; simpl; [reflexivity | now rewrite IH]. Qed.

Lemma join_space_snoc (l : list string) (w : string) :
  l <> [] ->
  join_space (l ++ [w]) = (join_space l ++ String " "%char w)%string.
Proof.
  induction l as [|x l IH]; intro Hl; [congruence|].
  destruct l as [|y l']; [reflexivity|].
  change ((x :: y :: l') ++ [w]) with (x :: y :: (l' ++ [w])).
  rewrite !join_space_cons.
  change (y :: l' ++ [w]) with ((y :: l') ++ [w]).
  rewrite IH by discriminate.
  rewrite append_assoc. reflexivity.
Qed.

Lemma firstn_snoc {A : Type} (l : list A) :
  forall m, m < List.length l -> exists x, firstn (S m) l = firstn m l ++ [x].
Proof.
  induction l as [|y l IH]; intros m Hm; cbn [List.length] in Hm; [lia|].
  destruct m as [|m]; [now exists y|].
  destruct (IH m) as [x Hx]; [lia|]. exists x.
  change (firstn (S (S m)) (y :: l)) with (y :: firstn (S m) l).
  now rewrite Hx.
Qed.

(** One more word adds a space and that word. *)
Lemma join_space_next_word (ws : list string) (m : nat) :
  0 < m < List.length ws ->
  exists w,
    join_space (firstn (S m) ws)
    = (join_space (firstn m ws) ++ String " "%char w)%string.
Proof.
  intro Hm. destruct (firstn_snoc ws m) as [w Hw]; [lia|].
  exists w. rewrite Hw. apply join_space_snoc.
  destruct ws as [|x xs]; [cbn [List.length] in Hm; lia|].
  destruct m; [lia | discriminate].
Qed.

(** X6. When the whitespace-normalized text is longer than [length] and its
    first word is shorter than [length], [_make_snippet] returns whole words:
    the first [m] words of the text joined by single spaces and followed by
    the ellipsis, where [m] is the largest number of leading words whose join
    is shorter than [length]. *)
Theorem snippet_keeps_whole_words (text : string) (length : nat)
    (w : string) (r : list string) :
  split text = w :: r ->
  length < String.length (join_space (split text)) ->
  String.length w < length ->
  exists m,
    0 < m < List.length (split text) /\
    _make_snippet text length
    = (join_space (firstn m (split text)) ++ ELLIPSIS)%string /\
    String.length (join_space (firstn m (split text))) < length /\
    length <= String.length (join_space (firstn (S m) (split text))).
Proof.
  intros Hws Hlong Hfirst.
  pose proof (split_no_space text) as Hns.
  unfold _make_snippet.
  destruct (String.length (join_space (split text)) <=? length) eqn:Hle;
    [apply Nat.leb_le in Hle; lia|].
  pose proof (rfind_space_from_spec (join_space (split text)) 0 length) as Hr.
  destruct (rfind_space_from 0 length (join_space (split text))) as [j|].
  - destruct Hr as (Hj & Hget & Hlast). rewrite Nat.sub_0_r in Hget.
    destruct (join_space_boundary _ Hns j Hget) as (m & Hm & Htake & Hlen).
    exists m. split; [exact Hm|]. split; [now rewrite Htake|].
    split; [lia|].
    destruct (Nat.lt_ge_cases (S m) (List.length (split text))) as [Hin|Hall].
    + destruct (Nat.lt_ge_cases
                  (String.length (join_space (firstn (S m) (split text))))
                  length) as [Hshort|]; [|assumption].
      exfalso.
      apply (Hlast (String.length (join_space (firstn (S m) (split text))))).
      * split; [|exact Hshort].
        destruct (join_space_next_word (split text) m Hm) as [w' Hw'].
        rewrite Hw', length_append, Hlen. cbn [String.length]. lia.
      * rewrite Nat.sub_0_r. apply join_space_separator. lia.
    + rewrite join_space_firstn_all by lia. lia.
  - exfalso. apply (Hr (String.length w)); [lia|].
    rewrite Nat.sub_0_r, Hws.
    destruct r as [|w2 r'].
    + rewrite Hws in Hlong. cbn [join_space] in Hlong. lia.
    + rewrite join_space_cons.
      rewrite <- (Nat.add_0_r (String.length w)) at 1.
      now rewrite get_app_r.
Qed.

Lemma snippet_keeps_whole_words_witness :
  exists m,
    0 < m < List.length (split "The cat sat on the mat") /\
    _make_snippet "The cat sat on the mat" 10
    = (join_space (firstn m (split "The cat sat on the mat")) ++ ELLIPSIS)%string
    /\
    String.length (join_space (firstn m (split "The cat sat on the mat"))) < 10
    /\
    10 <= String.length
            (join_space (firstn (S m) (split "The cat sat on the mat"))).
Proof.
  apply (snippet_keeps_whole_words "The cat sat on the mat" 10 "The"
           ["cat"; "sat"; "on"; "the"; "mat"] eq_refl).
  - vm_compute. lia.
  - vm_compute. lia.
Defined.

(** X7. [_make_snippet] returns the whitespace-normalized text unchanged when
    it has at most [length] characters. When the text is longer and its first
    word alone has [length] characters or more, the snippet is the first
    [length] characters of that word followed by the ellipsis: the word is
    cut. *)
Theorem snippet_short_text_and_long_word (text : string) (length : nat) :
  (String.length (join_space (split text)) <= length ->
   _make_snippet text length = join_space (split text)) /\
  (forall w r,
      split text = w :: r ->
      length < String.length (join_space (split text)) ->
      length <= String.length w ->
      _make_snippet text length = (take length w ++ ELLIPSIS)%string).
Proof.
  unfold _make_snippet. split.
  - intro H. apply Nat.leb_le in H. now rewrite H.
  - intros w r Hws Hlong Hw.
    destruct (String.length (join_space (split text)) <=? length) eqn:Hle;
      [apply Nat.leb_le in Hle; lia|].
    pose proof (split_no_space text) as Hns. rewrite Hws in *.
    inversion Hns as [|? ? Hnw _]; subst.
    assert (Htake : take length (join_space (w :: r)) = take length w).
    { destruct r as [|w2 r']; [reflexivity|].
      rewrite join_space_cons. now apply take_app_le. }
    pose proof (rfind_space_from_spec (join_space (w :: r)) 0 length) as Hr.
    destruct (rfind_space_from 0 length (join_space (w :: r))) as [j|].
    + exfalso. destruct Hr as (Hj & Hget & _). rewrite Nat.sub_0_r in Hget.
      destruct r as [|w2 r'].
      * exact (get_no_space w j Hnw Hget).
      * rewrite join_space_cons, get_app_l in Hget by lia.
        exact (get_no_space w j Hnw Hget).
    + now rewrite Htake.
Qed.

Lemma snippet_short_text_and_long_word_witness :
  _make_snippet "  a   b " 200 = "a b" /\
  _make_snippet "abcdefghij klm" 4 = ("abcd" ++ ELLIPSIS)%string.
Proof.
  split.
  - apply (proj1 (snippet_short_text_and_long_word "  a   b " 200)).
    vm_compute. lia.
  - apply (proj2 (snippet_short_text_and_long_word "abcdefghij klm" 4)
             "abcdefghij" ["klm"] eq_refl).
    + vm_compute. lia.
    + vm_compute. lia.
Defined.

End SnippetFacts.

(** ** More on the tokenizer *)

Module TokenizerFacts.
Import PyStr Preprocessor.

Lemma tokenize_unfold (text : string) :
  tokenize text = filter_stem (split (sub_non_alnum (lower text))).
Proof. now destruct text. Qed.

Lemma map_chars_append (f : ascii -> ascii) (a b : string) :
  map_chars f (a ++ b) = (map_chars f a ++ map_chars f b)%string.
Proof. induction a as [|c r IH]; simpl; [reflexivity | now rewrite IH]. Qed.

Lemma split_aux_append (a b : string) (sp : ascii) :
  is_space sp = true ->
  forall cur,
    split_aux cur (a ++ String sp b) = split_aux cur a ++ split b.
Proof.
  intro Hsp. induction a as [|x r IH]; intro cur.
  - cbn [append split_aux]. rewrite Hsp. now destruct cur.
  - cbn [append split_aux]. destruct (is_space x).
    + destruct cur; now rewrite IH.
    + apply IH.
Qed.

Lemma filter_stem_app (l1 l2 : list string) :
  filter_stem (l1 ++ l2) = filter_stem l1 ++ filter_stem l2.
Proof.
  induction l1 as [|w r IH]; [reflexivity|].
  cbn [app filter_stem]. rewrite IH.
  destruct (String.length w <? 2); [reflexivity|].
  now destruct (mem w STOP_WORDS).
Qed.

(** X8. A character that is not a letter or a digit separates tokens: the
    tokens of a text around such a character are the tokens of the part
    before it followed by the tokens of the part after it. *)
Theorem tokenize_splits_at_separator (a b : string) (c : ascii) :
  is_alnum (lower_char c) = false ->
  tokenize (a ++ String c b) = tokenize a ++ tokenize b.
Proof.
  intro Hc. rewrite !tokenize_unfold. unfold lower, sub_non_alnum.
  rewrite !map_chars_append. cbn [map_chars].
  rewrite Hc. cbn [orb].
  unfold split at 1.
  rewrite split_aux_append.
  - apply filter_stem_app.
  - destruct (is_space (lower_char c)) eqn:E; [exact E | reflexivity].
Qed.

Lemma tokenize_splits_at_separator_witness :
  tokenize ("web crawlers" ++ String "," "Indexing")
  = tokenize "web crawlers" ++ tokenize "Indexing".
Proof.
  apply (tokenize_splits_at_separator "web crawlers" "Indexing" ","%char).
  reflexivity.
Defined.

(** *** Case *)

Lemma lower_char_space (c : ascii) : is_space (lower_char c) = is_space c.
Proof.
  destruct c as [[] [] [] [] [] [] [] []]; reflexivity.
Qed.

Lemma split_all_space (s : string) :
  forallb_chars is_space s = true -> split s = [].
Proof.
  unfold split. induction s as [|c r IH]; [reflexivity|].
  cbn [forallb_chars split_aux]. intro H.
  apply andb_true_iff in H as [Hc Hr]. rewrite Hc. now apply IH.
Qed.

Lemma tokenize_all_space (text : string) :
  forallb_chars is_space text = true -> tokenize text = [].
Proof.
  intro H. rewrite tokenize_unfold, split_all_space; [reflexivity|].
  induction text as [|c r IH]; [reflexivity|].
  cbn [forallb_chars] in H. apply andb_true_iff in H as [Hc Hr].
  cbn [lower sub_non_alnum map_chars forallb_chars].
  fold (lower r). fold (sub_non_alnum (lower r)). rewrite (IH Hr), andb_true_r.
  rewrite lower_char_space, Hc, orb_true_r. now rewrite lower_char_space.
Qed.

Lemma rstrip_empty (s : string) :
  rstrip s = EmptyString -> forallb_chars is_space s = true.
Proof.
  induction s as [|c r IH]; [reflexivity|].
  cbn [rstrip forallb_chars].
  destruct (rstrip r); [|discriminate].
  destruct (is_space c); [|discriminate].
  intros _. now apply IH.
Qed.

Lemma lstrip_all_space_inv (s : string) :
  forallb_chars is_space (lstrip s) = true -> forallb_chars is_space s = true.
Proof.
  induction s as [|c r IH]; [reflexivity|].
  cbn [lstrip]. destruct (is_space c) eqn:E.
  - intro H. cbn [forallb_chars]. now rewrite E, IH.
  - cbn [forallb_chars]. now rewrite E.
Qed.

(** A query that [strip] empties has no tokens. *)
Lemma strip_empty_no_tokens (query : string) :
  strip query = EmptyString -> tokenize query = [].
Proof.
  intro H. apply tokenize_all_space, lstrip_all_space_inv, rstrip_empty, H.
Qed.

End TokenizerFacts.

(** ** More on ranking and search *)

Module QueryFacts.
Import PyStr Dict DictFacts Indexer IndexerFacts Ranker RankerFacts.
Import SearchEngine IndexContents TokenizerFacts.

Section WithFloats.
Context `{F : FloatOps}.

(** The first guard of [search] is implied by the second: [search] is decided
    by the tokens of the query. *)
Lemma search_by_tokens (indexer : Indexer) (query : string) (top_k : Z) :
  search indexer query top_k
  = match Preprocessor.tokenize query with
    | [] => []
    | query_tokens =>
        map (enrich (documents indexer))
            (compute_tfidf_scores query_tokens (index indexer)
               (doc_freq indexer) (documents indexer) top_k)
    end.
Proof.
  unfold search. destruct (strip query) eqn:E; [|reflexivity].
  now rewrite (strip_empty_no_tokens query E).
Qed.

(** X9. [search] does not distinguish upper and lower case: two queries with
    the same lowercase form get the same results from every index, for every
    [top_k]. *)
Theorem search_ignores_case (indexer : Indexer) (query1 query2 : string)
    (top_k : Z) :
  lower query1 = lower query2 ->
  search indexer query1 top_k = search indexer query2 top_k.
Proof.
  intro H. rewrite !search_by_tokens, !tokenize_unfold. now rewrite H.
Qed.

(** *** Query terms that the index does not know *)

Lemma score_terms_app index doc_freq documents q1 q2 :
  forall scores,
    score_terms index doc_freq documents (q1 ++ q2) scores
    = score_terms index doc_freq documents q2
        (score_terms index doc_freq documents q1 scores).
Proof.
  induction q1 as [|t r IH]; intro scores; [reflexivity|].
  cbn [app score_terms]. destruct (mem t index); apply IH.
Qed.

(** X10. A query term that is not a key of the index changes nothing: the
    ranking is the one of the query without that term. *)
Theorem unknown_query_term_is_ignored (q1 q2 : list string) (t : string)
    (index : InvertedIndex) (doc_freq : dict nat) (documents : Documents)
    (top_k : Z) :
  mem t index = false ->
  compute_tfidf_scores (q1 ++ t :: q2) index doc_freq documents top_k
  = compute_tfidf_scores (q1 ++ q2) index doc_freq documents top_k.
Proof.
  intro H. unfold compute_tfidf_scores.
  rewrite !score_terms_app. cbn [score_terms]. now rewrite H.
Qed.

Lemma score_terms_unknown index doc_freq documents query_tokens :
  (forall t, In t query_tokens -> mem t index = false) ->
  forall scores,
    score_terms index doc_freq documents query_tokens scores = scores.
Proof.
  induction query_tokens as [|t r IH]; intros H scores; [reflexivity|].
  cbn [score_terms]. rewrite (H t (or_introl eq_refl)).
  apply IH. intros t' Ht'. apply H. now right.
Qed.

(** X11. When no token of the query is a key of the index, and in particular
    on an empty index, [search] returns the empty list for every [top_k]. *)
Theorem search_without_known_term (indexer : Indexer) (query : string)
    (top_k : Z) :
  (forall t, In t (Preprocessor.tokenize query) ->
             mem t (index indexer) = false) ->
  search indexer query top_k = [].
Proof.
  intro H. rewrite search_by_tokens.
  destruct (Preprocessor.tokenize query) as [|t ts] eqn:E; [reflexivity|].
  unfold compute_tfidf_scores. rewrite score_terms_unknown by exact H.
  cbn [sorted_desc fold_right]. unfold slice_to.
  destruct (top_k <? 0)%Z; now rewrite firstn_nil.
Qed.

End WithFloats.

Lemma unknown_query_term_is_ignored_witness :
  @compute_tfidf_scores RealArith.RealOps (["cat"] ++ "zebra" :: ["dog"])
     [("cat", [("doc_0", [0])]); ("dog", [("doc_0", [1])])]
     [("cat", 1); ("dog", 1)]
     [("doc_0", mkDocMeta (Some "T") (Some "u") (Some "cat dog") (Some 2))] 10
  = @compute_tfidf_scores RealArith.RealOps (["cat"] ++ ["dog"])
     [("cat", [("doc_0", [0])]); ("dog", [("doc_0", [1])])]
     [("cat", 1); ("dog", 1)]
     [("doc_0", mkDocMeta (Some "T") (Some "u") (Some "cat dog") (Some 2))] 10.
Proof.
  apply (@unknown_query_term_is_ignored RealArith.RealOps).
  reflexivity.
Defined.

Lemma search_without_known_term_witness :
  @search RealArith.RealOps init "web crawler" 10 = [].
Proof.
  apply (@search_without_known_term RealArith.RealOps init "web crawler" 10).
  intros t _. reflexivity.
Defined.

(** *** Search on an index built from pages *)

Lemma occurrences_from_nil (t : string) (T : list string) :
  forall n, nonempty (occurrences_from n t T) = PyStr.mem t T.
Proof.
  unfold PyStr.mem. induction T as [|x r IH]; intro n; [reflexivity|].
  cbn [occurrences_from existsb]. rewrite (String.eqb_sym t x).
  destruct (String.eqb x t); [reflexivity | apply IH].
Qed.

Lemma find_unique {A : Type} (f : A -> string) (l : list A) (c : A) :
  NoDup (map f l) -> In c l ->
  find (fun c' => String.eqb (f c') (f c)) l = Some c.
Proof.
  induction l as [|x r IH]; intros Hnd Hin; [destruct Hin|].
  cbn [map] in Hnd. inversion Hnd as [|? ? Hnot Hnd']; subst.
  cbn [find]. destruct (String.eqb_spec (f x) (f c)) as [E|E].
  - destruct Hin as [->|Hin]; [reflexivity|].
    exfalso. apply Hnot. rewrite E. now apply in_map.
  - destruct Hin as [->|Hin]; [congruence | now apply IH].
Qed.

Lemma nth_error_calls_from (pages : list Page) :
  forall j i,
    nth_error (calls_from j pages) i
    = option_map (call_of_page (j + i)) (nth_error pages i).
Proof.
  induction pages as [|page r IH]; intros j i.
  - now destruct i.
  - destruct i as [|i]; cbn [calls_from nth_error option_map].
    + now rewrite Nat.add_0_r.
    + rewrite IH. now replace (S j + i) with (j + S i) by lia.
Qed.

Lemma built_postings_wf (pages : list Page) :
  postings_wf (index (build_from_crawled_data init pages)).
Proof.
  unfold build_from_crawled_data. rewrite build_loop_calls.
  intros t P E.
  assert (Hok : index_ok (index (add_documents init (calls_from 0 pages))))
    by (apply add_documents_ok; intros t0 P0; discriminate).
  apply (Hok _ _ E).
Qed.

Lemma built_listed (pages : list Page) (i : nat) (page : Page) (t : string) :
  nth_error pages i = Some page ->
  mem (doc_id_of i)
      (get_default t [] (index (build_from_crawled_data init pages)))
  = PyStr.mem t (Preprocessor.tokenize (page_text_or_empty page)).
Proof.
  intro Hnth. unfold mem. rewrite get_postings_positions.
  unfold build_from_crawled_data.
  rewrite build_loop_calls, positions_add_documents, contributed_calls_from.
  cbn [Nat.leb]. rewrite Nat.sub_0_r, Hnth.
  change (positions (index init) t (doc_id_of i)) with (@None (list nat)).
  cbn [call_of_page c_text]. fold (page_text_or_empty page).
  unfold occurrences. rewrite <- (occurrences_from_nil t _ 0).
  unfold extend. now destruct (occurrences_from 0 t _).
Qed.

Lemma built_meta (pages : list Page) (i : nat) (page : Page) :
  nth_error pages i = Some page ->
  get (doc_id_of i) (documents (build_from_crawled_data init pages))
  = Some (meta_of (call_of_page i page)).
Proof.
  intro Hnth. unfold build_from_crawled_data.
  rewrite build_loop_calls, documents_add_documents.
  assert (Hin : In (call_of_page i page) (calls_from 0 pages)).
  { apply (nth_error_In _ i). now rewrite nth_error_calls_from, Hnth. }
  change (doc_id_of i) with (c_doc_id (call_of_page i page)).
  rewrite (find_unique c_doc_id); [reflexivity | | now apply in_rev in Hin].
  rewrite map_rev. apply NoDup_rev.
  rewrite calls_from_ids. apply doc_ids_distinct.
Qed.

Lemma built_doc_keys (pages : list Page) (d : string) :
  mem d (documents (build_from_crawled_data init pages)) = true ->
  exists i page, nth_error pages i = Some page /\ d = doc_id_of i.
Proof.
  intro H. apply mem_true_iff in H. revert H.
  unfold build_from_crawled_data. rewrite build_loop_calls.
  assert (Hnd : NoDup (map c_doc_id (calls_from 0 pages)))
    by (rewrite calls_from_ids; apply doc_ids_distinct).
  rewrite (si_keys _ _ (state_inv_fresh _ Hnd)), calls_from_ids.
  intro H. apply in_map_iff in H as (i & <- & Hi).
  apply in_seq in Hi.
  destruct (nth_error pages i) as [page|] eqn:E.
  - now exists i, page.
  - apply nth_error_None in E. lia.
Qed.

Lemma index_stats_documents (pages : list Page) :
  List.length (documents (build_from_crawled_data init pages))
  = List.length pages.
Proof.
  unfold build_from_crawled_data. rewrite build_loop_calls.
  assert (Hnd : NoDup (map c_doc_id (calls_from 0 pages)))
    by (rewrite calls_from_ids; apply doc_ids_distinct).
  pose proof (si_keys _ _ (state_inv_fresh _ Hnd)) as Hk. unfold keys in Hk.
  rewrite <- (length_map fst), Hk.
  now rewrite calls_from_ids, length_map, length_seq.
Qed.

Section BuiltIndex.
Context `{F : FloatOps}.

Lemma accumulate_fold_some (xs : list (option fl)) :
  forall acc,
    (exists v, In (Some v) xs) ->
    exists s, fold_left accumulate xs acc = Some s.
Proof.
  induction xs as [|x r IH]; intros acc (v & Hv); [destruct Hv|].
  cbn [fold_left]. destruct Hv as [->|Hv].
  - cbn [accumulate]. clear IH.
    generalize (fadd match acc with Some a => a | None => fzero end v).
    induction r as [|y r' IHr]; intro a; [now exists a|].
    cbn [fold_left]. destruct y as [w|]; cbn [accumulate]; apply IHr.
  - apply IH. now exists v.
Qed.

(** With room for every document, the documents that [search] returns are
    those with a document entry that are listed under a query token. *)
Lemma scored_documents query_tokens index doc_freq documents top_k d :
  postings_wf index ->
  (Z.of_nat (List.length documents) <= top_k)%Z ->
  In d (map fst (compute_tfidf_scores query_tokens index doc_freq documents
                   top_k)) <->
  mem d documents = true /\
  exists t, In t query_tokens /\ mem t index = true /\
            mem d (get_default t [] index) = true.
Proof.
  intros Hwf Hk. split.
  - intro Hin. apply in_map_iff in Hin as ([d' s] & <- & Hin). cbn [fst].
    apply ranked_in_scores in Hin.
    destruct (score_formula _ _ _ _ _ _ Hwf Hin) as (meta & Hmeta & Hne & _).
    split; [unfold mem; now rewrite Hmeta|].
    unfold matching_terms in Hne.
    destruct (filter _ query_tokens) as [|t r] eqn:E; [congruence|].
    assert (Ht : In t (t :: r)) by now left.
    rewrite <- E in Ht. apply filter_In in Ht as [Hq Hc].
    apply andb_true_iff in Hc. exists t. tauto.
  - intros (Hdoc & t & Hq & Ht & Hd).
    unfold mem in Hdoc. destruct (get d documents) as [meta|] eqn:Hmeta;
      [|discriminate].
    assert (Hs : exists s,
               get d (score_terms index doc_freq documents query_tokens [])
               = Some s).
    { rewrite score_terms_get by exact Hwf.
      apply accumulate_fold_some.
      exists (tfidf_formula index doc_freq documents meta d t).
      apply in_map_iff. exists t. split; [|exact Hq].
      rewrite (term_score_formula _ _ _ _ _ _ Hmeta). now rewrite Ht, Hd. }
    destruct Hs as [sc Hs].
    apply in_map_iff. exists (d, sc). split; [reflexivity|].
    apply scores_in_ranked; [exact Hs|].
    assert (Hlen : List.length
                     (score_terms index doc_freq documents query_tokens [])
                   <= List.length documents).
    { rewrite <- (length_map fst), <- (length_map fst documents).
      apply NoDup_incl_length.
      - apply (score_terms_wf index doc_freq documents query_tokens []).
        constructor.
      - intros d' Hd'. apply mem_true_iff in Hd'. unfold mem in Hd'.
        destruct (get d' (score_terms index doc_freq documents query_tokens []))
          as [s'|] eqn:Es'; [|discriminate].
        destruct (score_formula _ _ _ _ _ _ Hwf Es') as (meta' & Hmeta' & _).
        apply mem_true_iff. unfold mem. now rewrite Hmeta'. }
    lia.
Qed.

Lemma search_doc_ids (indexer : Indexer) (query : string) (top_k : Z) :
  map r_doc_id (search indexer query top_k)
  = map fst
      (match Preprocessor.tokenize query with
       | [] => []
       | query_tokens =>
           compute_tfidf_scores query_tokens (index indexer)
             (doc_freq indexer) (documents indexer) top_k
       end).
Proof.
  rewrite search_by_tokens.
  destruct (Preprocessor.tokenize query); [reflexivity|].
  rewrite map_map. apply map_ext. now intros [d sc].
Qed.

Lemma matching_page_is_returned (pages : list Page) (query : string)
    (top_k : Z) (i : nat) (page : Page) (t : string) :
  nth_error pages i = Some page ->
  (Z.of_nat (List.length pages) <= top_k)%Z ->
  In t (Preprocessor.tokenize query) ->
  In t (Preprocessor.tokenize (page_text_or_empty page)) ->
  In (doc_id_of i)
     (map r_doc_id (search (build_from_crawled_data init pages) query top_k)).
Proof.
  intros Hnth Hk Hq Ht. rewrite search_doc_ids.
  pose proof (index_stats_documents pages) as Hn.
  destruct (Preprocessor.tokenize query) as [|t0 ts] eqn:Eq; [destruct Hq|].
  apply scored_documents; [apply built_postings_wf | lia|].
  split.
  - unfold mem. now rewrite (built_meta pages i page Hnth).
  - exists t. split; [exact Hq|].
    assert (Hd : mem (doc_id_of i)
                   (get_default t []
                      (index (build_from_crawled_data init pages))) = true)
      by (rewrite (built_listed pages i page t Hnth); now apply pystr_mem_In).
    split; [|exact Hd].
    destruct (mem t (index (build_from_crawled_data init pages))) eqn:Em;
      [reflexivity|].
    now rewrite (get_default_not_mem _ _ _ Em) in Hd.
Qed.

(** X12. On an index built by [build_from_crawled_data] on a freshly
    constructed [Indexer], with [top_k] at least the number of pages, [search]
    returns the page at index [i] exactly when the query and the text of that
    page have a token in common. *)
Theorem search_returns_the_matching_pages (pages : list Page)
    (query : string) (top_k : Z) (i : nat) (page : Page) :
  nth_error pages i = Some page ->
  (Z.of_nat (List.length pages) <= top_k)%Z ->
  In (doc_id_of i)
     (map r_doc_id (search (build_from_crawled_data init pages) query top_k))
  <->
  exists t, In t (Preprocessor.tokenize query) /\
            In t (Preprocessor.tokenize (page_text_or_empty page)).
Proof.
  intros Hnth Hk. split.
  - rewrite search_doc_ids.
    destruct (Preprocessor.tokenize query) as [|t0 ts] eqn:Eq; [intros []|].
    pose proof (index_stats_documents pages) as Hn.
    rewrite scored_documents by (apply built_postings_wf || lia).
    intros (_ & t & Hq & _ & Hd). exists t. split; [exact Hq|].
    rewrite (built_listed pages i page t Hnth) in Hd.
    now apply pystr_mem_In.
  - intros (t & Hq & Ht).
    exact (matching_page_is_returned pages query top_k i page t Hnth Hk Hq Ht).
Qed.

Lemma ranked_document query_tokens index doc_freq documents top_k d sc :
  postings_wf index ->
  In (d, sc)
     (compute_tfidf_scores query_tokens index doc_freq documents top_k) ->
  mem d documents = true /\
  exists t, In t query_tokens /\ mem d (get_default t [] index) = true.
Proof.
  intros Hwf Hin.
  apply (in_map fst) in Hin. cbn [fst] in Hin.
  destruct (slice_to_firstn
              (sorted_desc (score_terms index doc_freq documents query_tokens []))
              top_k) as [n Hn].
  unfold compute_tfidf_scores in Hin. rewrite Hn in Hin.
  rewrite <- firstn_map in Hin. apply In_firstn in Hin.
  apply in_map_iff in Hin as ([d' s'] & Hd' & Hin). cbn [fst] in Hd'. subst d'.
  apply (Permutation_in _ (sorted_desc_perm _)) in Hin.
  apply In_get in Hin;
    [|apply (score_terms_wf index doc_freq documents query_tokens []);
      constructor].
  destruct (score_formula _ _ _ _ _ _ Hwf Hin) as (meta & Hmeta & Hne & _).
  split; [unfold mem; now rewrite Hmeta|].
  unfold matching_terms in Hne.
  destruct (filter _ query_tokens) as [|t r] eqn:E; [congruence|].
  assert (Ht : In t (t :: r)) by now left.
  rewrite <- E in Ht. apply filter_In in Ht as [Hq Hc].
  apply andb_true_iff in Hc. exists t. tauto.
Qed.

(** X13. Every result that [search] returns from an index built by
    [build_from_crawled_data] on a freshly constructed [Indexer] describes a
    page of the input: its doc_id is that of the page at some index [i], its
    title and url are those of the page ("Untitled" and the empty string when
    the page has none), its snippet is the snippet of the page's text, and the
    query and that text have a token in common. *)
Theorem search_results_describe_pages (pages : list Page) (query : string)
    (top_k : Z) (r : Result) :
  In r (search (build_from_crawled_data init pages) query top_k) ->
  exists i page,
    nth_error pages i = Some page /\
    r_doc_id r = doc_id_of i /\
    r_title r = match page_title page with Some x => x | None => "Untitled" end
    /\
    r_url r = match page_url page with Some x => x | None => "" end /\
    r_snippet r = _make_snippet (page_text_or_empty page) SNIPPET_LENGTH /\
    exists t, In t (Preprocessor.tokenize query) /\
              In t (Preprocessor.tokenize (page_text_or_empty page)).
Proof.
  rewrite search_by_tokens.
  destruct (Preprocessor.tokenize query) as [|t0 ts]; [intros []|].
  intro Hin. apply in_map_iff in Hin as ([d sc] & <- & Hin).
  destruct (ranked_document _ _ _ _ _ _ _ (built_postings_wf pages) Hin)
    as (Hdoc & t & Hq & Hd).
  destruct (built_doc_keys pages d Hdoc) as (i & page & Hnth & ->).
  exists i, page. split; [exact Hnth|].
  unfold enrich, get_default. rewrite (built_meta pages i page Hnth).
  cbn [r_doc_id r_title r_url r_snippet meta_of meta_title meta_url
       meta_snippet call_of_page c_title c_url c_text].
  repeat split.
  exists t. split; [exact Hq|].
  rewrite (built_listed pages i page t Hnth) in Hd. now apply pystr_mem_In.
Qed.

End BuiltIndex.

(** A witness for X9: on the two-document example the query "Cats SAT" finds
    both documents ("cat" is in both, "sat" in the first), and the query
    "cats sat" gets the same list of results. *)
Lemma search_ignores_case_witness :
  let pages :=
    [mkPage (Some "D0") (Some "u0") (Some "The cat sat on the mat");
     mkPage (Some "D1") (Some "u1") (Some "Dogs chase cats")] in
  let self := build_from_crawled_data init pages in
  @search RealArith.RealOps self "Cats SAT" 5
  = @search RealArith.RealOps self "cats sat" 5 /\
  In (doc_id_of 0)
     (map (@r_doc_id RealArith.RealOps)
        (@search RealArith.RealOps self "Cats SAT" 5)) /\
  In (doc_id_of 1)
     (map (@r_doc_id RealArith.RealOps)
        (@search RealArith.RealOps self "cats sat" 5)).
Proof.
  intros pages self. split; [|split].
  - apply (@search_ignores_case RealArith.RealOps self
             "Cats SAT" "cats sat" 5).
    reflexivity.
  - apply (@matching_page_is_returned RealArith.RealOps pages "Cats SAT" 5 0
             (mkPage (Some "D0") (Some "u0") (Some "The cat sat on the mat"))
             "sat" eq_refl).
    + vm_compute. discriminate.
    + vm_compute. tauto.
    + vm_compute. tauto.
  - apply (@matching_page_is_returned RealArith.RealOps pages "cats sat" 5 1
             (mkPage (Some "D1") (Some "u1") (Some "Dogs chase cats"))
             "cat" eq_refl).
    + vm_compute. discriminate.
    + vm_compute. tauto.
    + vm_compute. tauto.
Defined.

Lemma search_returns_the_matching_pages_witness :
  In (doc_id_of 1)
     (map (@r_doc_id RealArith.RealOps)
        (@search RealArith.RealOps
           (build_from_crawled_data init
              [mkPage (Some "D0") (Some "u0") (Some "The cat sat on the mat");
               mkPage (Some "D1") (Some "u1") (Some "Dogs chase cats")])
           "Chasing dogs" 10)).
Proof.
  apply (@search_returns_the_matching_pages RealArith.RealOps
           [mkPage (Some "D0") (Some "u0") (Some "The cat sat on the mat");
            mkPage (Some "D1") (Some "u1") (Some "Dogs chase cats")]
           "Chasing dogs" 10 1
           (mkPage (Some "D1") (Some "u1") (Some "Dogs chase cats")) eq_refl).
  - vm_compute. discriminate.
  - exists "dog". split; vm_compute; tauto.
Defined.

Lemma search_results_describe_pages_witness :
  let pages :=
    [mkPage (Some "D0") (Some "u0") (Some "The cat sat on the mat");
     mkPage None (Some "u1") (Some "Dogs chase cats")] in
  exists r : @Result RealArith.RealOps,
    r_doc_id r = "doc_1" /\
    exists i page,
      nth_error pages i = Some page /\
      r_doc_id r = doc_id_of i /\
      r_title r
      = match page_title page with Some x => x | None => "Untitled" end /\
      r_url r = match page_url page with Some x => x | None => "" end /\
      r_snippet r = _make_snippet (page_text_or_empty page) SNIPPET_LENGTH /\
      exists t, In t (Preprocessor.tokenize "Chasing dogs") /\
                In t (Preprocessor.tokenize (page_text_or_empty page)).
Proof.
  intro pages.
  assert (Hin : In (doc_id_of 1)
                   (map (@r_doc_id RealArith.RealOps)
                      (@search RealArith.RealOps
                         (build_from_crawled_data init pages)
                         "Chasing dogs" 10))).
  { apply (@matching_page_is_returned RealArith.RealOps pages "Chasing dogs"
             10 1 (mkPage None (Some "u1") (Some "Dogs chase cats")) "dog"
             eq_refl).
    - vm_compute. discriminate.
    - vm_compute. tauto.
    - vm_compute. tauto. }
  destruct (proj1 (in_map_iff _ _ _) Hin) as (r & Hid & Hr).
  exists r. split; [exact Hid|].
  exact (@search_results_describe_pages RealArith.RealOps pages
           "Chasing dogs" 10 r Hr).
Defined.

End QueryFacts.

(** ** More on the stemmer *)

Module StemmerFacts.
Import PyStr Preprocessor SnippetFacts.

Lemma take_substring (s : string) :
  forall n,
    n <= String.length s ->
    s = (take n s ++ substring n (String.length s - n) s)%string.
Proof.
  induction s as [|c r IH]; intros [|n] Hn; cbn [String.length] in *;
    try lia.
  - reflexivity.
  - rewrite take_0. cbn [append]. rewrite Nat.sub_0_r.
    change (String c r = substring 0 (S (String.length r)) (String c r)).
    cbn [substring]. f_equal.
    clear. induction r as [|x r IH]; [reflexivity|].
    cbn [String.length substring]. now rewrite <- IH.
  - rewrite take_cons. cbn [append substring Nat.sub]. f_equal.
    apply IH. lia.
Qed.

Lemma endswith_split (w suffix : string) :
  endswith w suffix = true ->
  w = (take (String.length w - String.length suffix) w ++ suffix)%string.
Proof.
  unfold endswith. intro H. apply andb_true_iff in H as [Hlen Heq].
  apply Nat.leb_le in Hlen. apply String.eqb_eq in Heq.
  pose proof (take_substring w (String.length w - String.length suffix)
                ltac:(lia)) as H.
  replace (String.length w - (String.length w - String.length suffix))
    with (String.length suffix) in H by lia.
  now rewrite Heq in H.
Qed.

(** No rule of the table replaces a suffix by a longer string. *)
Lemma suffixes_shorten :
  Forall (fun r => String.length (snd r) <= String.length (fst r)) suffixes.
Proof. repeat constructor. Qed.

Lemma stem_loop_rewrites (rules : list (string * string)) (word : string) :
  stem_loop rules word = word \/
  exists suffix replacement,
    In (suffix, replacement) rules /\
    endswith word suffix = true /\
    stem_loop rules word = apply_rule word suffix replacement /\
    3 <= String.length (apply_rule word suffix replacement).
Proof.
  induction rules as [|[suffix replacement] rest IH];
    cbn [stem_loop In]; [now left|].
  assert (Hrest : stem_loop rest word = word \/
    exists suffix0 replacement0,
      ((suffix, replacement) = (suffix0, replacement0)
       \/ In (suffix0, replacement0) rest) /\
      endswith word suffix0 = true /\
      stem_loop rest word = apply_rule word suffix0 replacement0 /\
      3 <= String.length (apply_rule word suffix0 replacement0)).
  { destruct IH as [IH | (s0 & r0 & Hin & He & Heq & Hlen)]; [now left|].
    right. exists s0, r0. auto. }
  destruct (endswith word suffix) eqn:Hends; [|exact Hrest].
  destruct (3 <=? String.length (apply_rule word suffix replacement)) eqn:E;
    [|exact Hrest].
  right. exists suffix, replacement. apply Nat.leb_le in E. auto.
Qed.

(** X14. [_stem] either returns the word unchanged or replaces one suffix of
    the rule table by its replacement, leaving the part of the word before
    that suffix as it is; the result is never longer than the word, and a
    rewritten word has at least three characters. *)
Theorem stem_rewrites_one_suffix (word : string) :
  String.length (_stem word) <= String.length word /\
  (_stem word = word \/
   exists stem_part suffix replacement,
     In (suffix, replacement) suffixes /\
     word = (stem_part ++ suffix)%string /\
     _stem word = (stem_part ++ replacement)%string /\
     3 <= String.length (_stem word)).
Proof.
  unfold _stem. destruct (String.length word <=? 3); [split; [lia | now left]|].
  destruct (stem_loop_rewrites suffixes word)
    as [-> | (suffix & replacement & Hin & Hends & -> & H3)];
    [split; [lia | now left]|].
  pose proof (endswith_split word suffix Hends) as Hsplit.
  pose proof (proj1 (Forall_forall _ _) suffixes_shorten _ Hin) as Hshort.
  cbn [fst snd] in Hshort.
  split.
  - unfold apply_rule. rewrite length_append.
    rewrite Hsplit at 3. rewrite length_append. lia.
  - right. exists (take (String.length word - String.length suffix) word),
             suffix, replacement.
    repeat split; assumption || reflexivity.
Qed.

End StemmerFacts.

(** ** crawler.py

    The breadth-first loop of [Crawler.crawl]. What lies outside the
    program (the HTTP download with its HTML parsing, the robots.txt parser
    and the link extraction by the HTML parser) is a parameter of the model:
    a crawl asks for each URL at most once. *)

Module Crawler.

(** A page dictionary as [_fetch_page] returns it. *)
Record CrawledPage : Type := mkCrawledPage {
  cp_url : string;
  cp_title : string;
  cp_text : string;
  cp_html : string
}.

(** What a successful download yields: the title and the text extracted from
    the parsed page, and the raw HTML. *)
Record Response : Type := mkResponse {
  resp_title : string;
  resp_text : string;
  resp_html : string
}.

(** The attributes of a [Crawler] that [crawl] changes, and its local
    [queue] of [(url, depth)] pairs. *)
Record CrawlState : Type := mkCrawlState {
  queue : list (string * Z);
  visited : list string;
  pages : list CrawledPage
}.

Section WithNetwork.

(** [robot_parser.can_fetch(USER_AGENT, url)], [True] on a parser error. *)
Variable _is_allowed : string -> bool.
(** The download of [_fetch_page]: [None] on a request error or a page that
    is not HTML. *)
Variable download : string -> option Response.
(** [_extract_links(html, base_url)] *)
Variable _extract_links : string -> string -> list string.

Variable max_depth : Z.
Variable max_pages : Z.

Definition _fetch_page (url : string) : option CrawledPage :=
  match download url with
  | Some r => Some (mkCrawledPage url (resp_title r) (resp_text r) (resp_html r))
  | None => None
  end.

(** The links of a fetched page that go into the queue: those not yet
    visited, one hop deeper. *)
Definition new_entries (visited : list string) (page : CrawledPage)
    (url : string) (depth : Z) : list (string * Z) :=
  map (fun link => (link, (depth + 1)%Z))
      (filter (fun link => negb (PyStr.mem link visited))
              (_extract_links (cp_html page) url)).

(** [while queue and len(self.pages) < self.max_pages] *)
Definition loop_guard (s : CrawlState) : bool :=
  match queue s with
  | [] => false
  | _ => (Z.of_nat (List.length (pages s)) <? max_pages)%Z
  end.

(** One iteration of the loop of [crawl]. *)
Definition loop_body (s : CrawlState) : CrawlState :=
  match queue s with
  | [] => s
  | (url, depth) :: rest =>
      if PyStr.mem url (visited s) then mkCrawlState rest (visited s) (pages s)
      else if (max_depth <? depth)%Z
      then mkCrawlState rest (visited s) (pages s)
      else if negb (_is_allowed url)
      then mkCrawlState rest (visited s) (pages s)
      else
        match _fetch_page url with
        | None => mkCrawlState rest (url :: visited s) (pages s)
        | Some page =>
            mkCrawlState
              (if (depth <? max_depth)%Z
               then rest ++ new_entries (url :: visited s) page url depth
               else rest)
              (url :: visited s)
              (pages s ++ [page])
        end
  end.

(** The loop, run for at most [fuel] iterations: [None] when it has not
    exited by then. *)
Fixpoint while_loop (fuel : nat) (s : CrawlState) : option CrawlState :=
  match fuel with
  | 0 => None
  | S fuel' =>
      if loop_guard s then while_loop fuel' (loop_body s) else Some s
  end.

(** The state in which the loop exits, computed by recursion on the number
    of pages that may still be added and, within it, on the queue: the queue
    only grows when a page is added. *)
Fixpoint run_loop (budget : nat) (q : list (string * Z)) (vis : list string)
    (pgs : list CrawledPage) {struct budget} : CrawlState :=
  match budget with
  | 0 => mkCrawlState q vis pgs
  | S budget' =>
      (fix scan (q : list (string * Z)) (vis : list string) {struct q}
         : CrawlState :=
         match q with
         | [] => mkCrawlState [] vis pgs
         | (url, depth) :: rest =>
             if PyStr.mem url vis then scan rest vis
             else if (max_depth <? depth)%Z then scan rest vis
             else if negb (_is_allowed url) then scan rest vis
             else
               match _fetch_page url with
               | None => scan rest (url :: vis)
               | Some page =>
                   run_loop budget'
                     (if (depth <? max_depth)%Z
                      then rest ++ new_entries (url :: vis) page url depth
                      else rest)
                     (url :: vis)
                     (pgs ++ [page])
               end
         end) q vis
  end.

(** The number of pages that may still be added. *)
Definition budget_of (s : CrawlState) : nat :=
  Z.to_nat (max_pages - Z.of_nat (List.length (pages s))).

Definition exit_state (s : CrawlState) : CrawlState :=
  run_loop (budget_of s) (queue s) (visited s) (pages s).

(** [Crawler.crawl] on a crawler whose [visited] and [pages] are as given;
    [__init__] leaves both empty. *)
Definition crawl_from (seed_url : string) (vis : list string)
    (pgs : list CrawledPage) : list CrawledPage :=
  pages (exit_state (mkCrawlState [(seed_url, 0%Z)] vis pgs)).

Definition crawl (seed_url : string) : list CrawledPage :=
  crawl_from seed_url [] [].

End WithNetwork.

(** The page dictionary as [build_from_crawled_data] reads it. *)
Definition to_page (p : CrawledPage) : Indexer.Page :=
  Indexer.mkPage (Some (cp_title p)) (Some (cp_url p)) (Some (cp_text p)).

End Crawler.

Module CrawlerFacts.
Import Crawler.

Section WithNetwork.
Variable _is_allowed : string -> bool.
Variable download : string -> option Response.
Variable _extract_links : string -> string -> list string.
Variable max_depth : Z.
Variable max_pages : Z.

Local Abbreviation guard := (loop_guard max_pages).
Local Abbreviation body :=
  (loop_body _is_allowed download _extract_links max_depth).
Local Abbreviation loop :=
  (while_loop _is_allowed download _extract_links max_depth max_pages).
Local Abbreviation run :=
  (run_loop _is_allowed download _extract_links max_depth).
Local Abbreviation final :=
  (exit_state _is_allowed download _extract_links max_depth max_pages).

Lemma run_scan (b : nat) (url : string) (depth : Z)
    (rest : list (string * Z)) (vis : list string) (pgs : list CrawledPage) :
  run (S b) ((url, depth) :: rest) vis pgs
  = if PyStr.mem url vis then run (S b) rest vis pgs
    else if (max_depth <? depth)%Z then run (S b) rest vis pgs
    else if negb (_is_allowed url) then run (S b) rest vis pgs
    else
      match _fetch_page download url with
      | None => run (S b) rest (url :: vis) pgs
      | Some page =>
          run b
            (if (depth <? max_depth)%Z
             then rest ++ new_entries _extract_links (url :: vis) page url depth
             else rest)
            (url :: vis) (pgs ++ [page])
      end.
Proof. reflexivity. Qed.

Lemma run_empty_queue (b : nat) (vis : list string) (pgs : list CrawledPage) :
  run b [] vis pgs = mkCrawlState [] vis pgs.
Proof. now destruct b. Qed.

Lemma budget_of_zero (s : CrawlState) :
  budget_of max_pages s = 0 ->
  (Z.of_nat (List.length (pages s)) <? max_pages)%Z = false.
Proof. unfold budget_of. intro H. apply Z.ltb_ge. lia. Qed.

Lemma budget_of_succ (s : CrawlState) (b : nat) :
  budget_of max_pages s = S b ->
  (Z.of_nat (List.length (pages s)) <? max_pages)%Z = true.
Proof. unfold budget_of. intro H. apply Z.ltb_lt. lia. Qed.

Lemma budget_of_page (q q' : list (string * Z)) (vis vis' : list string)
    (pgs : list CrawledPage) (page : CrawledPage) (b : nat) :
  budget_of max_pages (mkCrawlState q vis pgs) = S b ->
  budget_of max_pages (mkCrawlState q' vis' (pgs ++ [page])) = b.
Proof.
  unfold budget_of. cbn [pages]. rewrite length_app. cbn [List.length]. lia.
Qed.

(** While the guard holds, one iteration does not change the state in which
    the loop exits. *)
Lemma final_step (s : CrawlState) :
  guard s = true -> final (body s) = final s.
Proof.
  destruct s as [q vis pgs]. unfold loop_guard, exit_state.
  cbn [queue visited pages].
  destruct q as [|[url depth] rest]; [discriminate|]. intro Hlt.
  destruct (budget_of max_pages (mkCrawlState ((url, depth) :: rest) vis pgs))
    as [|b] eqn:Hb.
  - apply budget_of_zero in Hb. cbn [pages] in Hb. congruence.
  - rewrite run_scan. unfold loop_body. cbn [queue visited pages].
    assert (Hsame : forall q' vis',
               budget_of max_pages (mkCrawlState q' vis' pgs) = S b)
      by (intros; exact Hb).
    destruct (PyStr.mem url vis);
      [cbn [queue visited pages]; now rewrite Hsame|].
    destruct (max_depth <? depth)%Z;
      [cbn [queue visited pages]; now rewrite Hsame|].
    destruct (negb (_is_allowed url));
      [cbn [queue visited pages]; now rewrite Hsame|].
    destruct (_fetch_page download url) as [page|];
      cbn [queue visited pages]; [|now rewrite Hsame].
    now rewrite (budget_of_page _ _ _ _ _ _ _ Hb).
Qed.

Lemma final_exit (s : CrawlState) : guard s = false -> final s = s.
Proof.
  destruct s as [q vis pgs]. unfold loop_guard, exit_state.
  cbn [queue visited pages].
  destruct q as [|e rest]; [intros _; apply run_empty_queue|].
  intro Hge.
  destruct (budget_of max_pages (mkCrawlState (e :: rest) vis pgs))
    as [|b] eqn:Hb; [reflexivity|].
  apply budget_of_succ in Hb. cbn [pages] in Hb. congruence.
Qed.

Lemma loop_more_fuel (fuel : nat) :
  forall s r k, loop fuel s = Some r -> loop (fuel + k) s = Some r.
Proof.
  induction fuel as [|f IH]; intros s r k H; [discriminate|].
  cbn [while_loop Nat.add] in *.
  destruct (guard s); [now apply IH | exact H].
Qed.

(** The loop exits, in the state that [run_loop] computes. *)
Lemma loop_terminates (b : nat) :
  forall q vis pgs,
    budget_of max_pages (mkCrawlState q vis pgs) = b ->
    exists fuel,
      loop fuel (mkCrawlState q vis pgs) = Some (final (mkCrawlState q vis pgs)).
Proof.
  induction b as [|b IHb]; intros q vis pgs Hb.
  - exists 1. cbn [while_loop].
    assert (Hg : guard (mkCrawlState q vis pgs) = false).
    { unfold loop_guard. cbn [queue]. destruct q; [reflexivity|].
      now apply budget_of_zero in Hb. }
    now rewrite Hg, final_exit.
  - revert vis Hb. induction q as [|[url depth] rest IHq]; intros vis Hb.
    + exists 1. cbn [while_loop].
      assert (Hg : guard (mkCrawlState [] vis pgs) = false) by reflexivity.
      now rewrite Hg, final_exit.
    + assert (Hg : guard (mkCrawlState ((url, depth) :: rest) vis pgs) = true).
      { unfold loop_guard. cbn [queue]. now apply budget_of_succ in Hb. }
      assert (Hnext : exists fuel,
                 loop fuel (body (mkCrawlState ((url, depth) :: rest) vis pgs))
                 = Some (final
                           (body (mkCrawlState ((url, depth) :: rest) vis pgs)))).
      { unfold loop_body. cbn [queue visited pages].
        destruct (PyStr.mem url vis); [now apply IHq|].
        destruct (max_depth <? depth)%Z; [now apply IHq|].
        destruct (negb (_is_allowed url)); [now apply IHq|].
        destruct (_fetch_page download url) as [page|]; [|now apply IHq].
        apply IHb. exact (budget_of_page _ _ _ _ _ _ _ Hb). }
      destruct Hnext as [fuel Hfuel]. exists (S fuel).
      cbn [while_loop]. now rewrite Hg, Hfuel, final_step.
Qed.

(** A property that every iteration keeps holds when the loop exits. *)
Lemma final_invariant (P : CrawlState -> Prop) :
  (forall s, P s -> guard s = true -> P (body s)) ->
  forall s, P s -> P (final s).
Proof.
  intros Hstep s Hs.
  destruct s as [q vis pgs].
  destruct (loop_terminates _ q vis pgs eq_refl) as [fuel Hfuel].
  revert Hfuel Hs. generalize (final (mkCrawlState q vis pgs)) as r.
  generalize (mkCrawlState q vis pgs) as s.
  induction fuel as [|f IH]; intros s r Hrun Hs; [discriminate|].
  cbn [while_loop] in Hrun. destruct (guard s) eqn:Hg.
  - apply (IH (body s)); [exact Hrun | now apply Hstep].
  - now injection Hrun as <-.
Qed.

Lemma loop_exit_guard (fuel : nat) :
  forall s r, loop fuel s = Some r -> guard r = false.
Proof.
  induction fuel as [|f IH]; intros s r H; [discriminate|].
  cbn [while_loop] in H. destruct (guard s) eqn:Hg; [now apply (IH _ _ H)|].
  now injection H as <-.
Qed.

(** X15. Whatever the network returns, the loop of [crawl] exits after
    finitely many iterations, with the queue empty or [max_pages] pages
    collected; running it longer changes nothing. *)
Theorem crawl_loop_exits (s : CrawlState) :
  exists fuel r,
    (forall k, loop (fuel + k) s = Some r) /\
    (queue r = [] \/ (max_pages <= Z.of_nat (List.length (pages r)))%Z).
Proof.
  destruct s as [q vis pgs].
  destruct (loop_terminates _ q vis pgs eq_refl) as [fuel Hfuel].
  exists fuel, (final (mkCrawlState q vis pgs)). split.
  - intro k. now apply loop_more_fuel.
  - apply loop_exit_guard in Hfuel. unfold loop_guard in Hfuel.
    destruct (queue (final (mkCrawlState q vis pgs))); [now left|].
    right. apply Z.ltb_ge in Hfuel. exact Hfuel.
Qed.

Lemma fetch_page_url (url : string) (page : CrawledPage) :
  _fetch_page download url = Some page -> cp_url page = url.
Proof.
  unfold _fetch_page. destruct (download url); [|discriminate].
  now intros [= <-].
Qed.

Lemma NoDup_snoc {A : Type} (l : list A) (x : A) :
  NoDup l -> ~ In x l -> NoDup (l ++ [x]).
Proof.
  intros Hl Hx. apply (Permutation_NoDup (l := x :: l)).
  - apply Permutation_cons_append.
  - now constructor.
Qed.

(** X16. A crawl started on a new [Crawler] returns at most [max_pages]
    pages (none when [max_pages] is not positive), and no two of them have
    the same URL. *)
Theorem crawl_page_limit_and_distinct_urls (seed_url : string) :
  (Z.of_nat
     (List.length
        (crawl _is_allowed download _extract_links max_depth max_pages
               seed_url))
   <= Z.max 0 max_pages)%Z /\
  NoDup (map cp_url
           (crawl _is_allowed download _extract_links max_depth max_pages
                  seed_url)).
Proof.
  unfold crawl, crawl_from.
  pose (P := fun s : CrawlState =>
               (Z.of_nat (List.length (pages s)) <= Z.max 0 max_pages)%Z /\
               NoDup (map cp_url (pages s)) /\
               forall p, In p (pages s) -> In (cp_url p) (visited s)).
  assert (H : P (final (mkCrawlState [(seed_url, 0%Z)] [] []))).
  { apply final_invariant.
    - intros [q vis pgs] (Hlen & Hnd & Hvis) Hg.
      unfold loop_guard in Hg. unfold loop_body, P.
      cbn [queue visited pages] in *.
      destruct q as [|[url depth] rest]; [discriminate|].
      apply Z.ltb_lt in Hg.
      destruct (PyStr.mem url vis) eqn:Hmem; [now repeat split|].
      destruct (max_depth <? depth)%Z; [now repeat split|].
      destruct (negb (_is_allowed url)); [now repeat split|].
      destruct (_fetch_page download url) as [page|] eqn:Hfetch;
        cbn [queue visited pages].
      + apply fetch_page_url in Hfetch.
        split; [rewrite length_app; cbn [List.length]; lia|]. split.
        * rewrite map_app. cbn [map]. apply NoDup_snoc; [exact Hnd|].
          rewrite Hfetch. intro Hin. apply in_map_iff in Hin as (p & Hp & Hin).
          specialize (Hvis p Hin). rewrite Hp in Hvis.
          apply IndexContents.pystr_mem_In in Hvis. congruence.
        * intros p Hp. apply in_app_or in Hp as [Hp|[<-|[]]].
          -- right. now apply Hvis.
          -- left. now symmetry.
      + split; [exact Hlen|]. split; [exact Hnd|].
        intros p Hp. right. now apply Hvis.
    - unfold P. cbn [pages List.length map]. repeat split; try lia.
      + constructor.
      + intros p []. }
  destruct H as (Hlen & Hnd & _). now split.
Qed.

(** X17. Every page that a crawl started on a new [Crawler] returns was
    permitted by robots.txt and is what the download of its own URL
    returned, and its URL is the seed or a link extracted from a returned
    page. *)
Theorem crawl_pages_are_fetched_and_linked (seed_url : string)
    (p : CrawledPage) :
  In p (crawl _is_allowed download _extract_links max_depth max_pages
              seed_url) ->
  _is_allowed (cp_url p) = true /\
  download (cp_url p)
  = Some (mkResponse (cp_title p) (cp_text p) (cp_html p)) /\
  (cp_url p = seed_url \/
   exists p',
     In p' (crawl _is_allowed download _extract_links max_depth max_pages
                  seed_url) /\
     In (cp_url p) (_extract_links (cp_html p') (cp_url p'))).
Proof.
  unfold crawl, crawl_from.
  pose (linked := fun (pgs : list CrawledPage) (url : string) =>
                    url = seed_url \/
                    exists p', In p' pgs /\
                               In url (_extract_links (cp_html p') (cp_url p'))).
  pose (P := fun s : CrawlState =>
               (forall p, In p (pages s) ->
                          _is_allowed (cp_url p) = true /\
                          download (cp_url p)
                          = Some (mkResponse (cp_title p) (cp_text p)
                                             (cp_html p)) /\
                          linked (pages s) (cp_url p)) /\
               forall e, In e (queue s) -> linked (pages s) (fst e)).
  assert (Hmono : forall pgs page url,
             linked pgs url -> linked (pgs ++ [page]) url).
  { intros pgs page url [Hs | (p' & Hp' & Hl)]; [now left|].
    right. exists p'. split; [apply in_or_app; now left | exact Hl]. }
  assert (H : P (final (mkCrawlState [(seed_url, 0%Z)] [] []))).
  { apply final_invariant.
    - intros [q vis pgs] (Hpages & Hqueue) Hg.
      unfold loop_guard in Hg. unfold loop_body, P.
      cbn [queue visited pages] in *.
      destruct q as [|[url depth] rest]; [discriminate|].
      assert (Hrest : forall e, In e rest -> linked pgs (fst e))
        by (intros e He; apply Hqueue; now right).
      pose proof (Hqueue (url, depth) (or_introl eq_refl)) as Hurl.
      cbn [fst] in Hurl.
      destruct (PyStr.mem url vis); [now split|].
      destruct (max_depth <? depth)%Z; [now split|].
      destruct (_is_allowed url) eqn:Hallowed; cbn [negb]; [|now split].
      destruct (_fetch_page download url) as [page|] eqn:Hfetch;
        cbn [queue visited pages]; [|now split].
      pose proof (fetch_page_url _ _ Hfetch) as Hpu.
      split.
      + intros p0 Hp0. apply in_app_or in Hp0 as [Hp0|[<-|[]]].
        * destruct (Hpages p0 Hp0) as (Ha & Hd & Hl).
          split; [exact Ha|]. split; [exact Hd|]. now apply Hmono.
        * rewrite Hpu. split; [exact Hallowed|]. split.
          -- unfold _fetch_page in Hfetch.
             destruct (download url) as [r|]; [|discriminate].
             injection Hfetch as <-. now destruct r.
          -- now apply Hmono.
      + intros e He.
        assert (Hnew : In e (new_entries _extract_links (url :: vis) page
                               url depth) ->
                       linked (pgs ++ [page]) (fst e)).
        { unfold new_entries. intro Hin.
          apply in_map_iff in Hin as (l & <- & Hl).
          apply filter_In in Hl as [Hl _]. cbn [fst].
          right. exists page.
          split; [apply in_or_app; right; now left | now rewrite Hpu]. }
        destruct (depth <? max_depth)%Z.
        * apply in_app_or in He as [He|He];
            [apply Hmono; now apply Hrest | now apply Hnew].
        * apply Hmono. now apply Hrest.
    - unfold P. cbn [pages queue]. split; [intros p0 []|].
      intros e [<-|[]]. now left. }
  intro Hin. destruct H as [Hpages _].
  destruct (Hpages p Hin) as (Ha & Hd & Hl). now repeat split.
Qed.

(** X18. A crawl started on a new [Crawler] returns no page when
    [max_pages] is not positive, when [max_depth] is negative, when
    robots.txt forbids the seed or when the seed cannot be downloaded: nothing
    but the seed is tried. With [max_depth = 0] and a seed that is permitted
    and downloaded, it returns the seed page alone. *)
Theorem crawl_seed_only_cases (seed_url : string) :
  ((max_pages <= 0)%Z \/ (max_depth < 0)%Z \/
   _is_allowed seed_url = false \/ download seed_url = None ->
   crawl _is_allowed download _extract_links max_depth max_pages seed_url
   = []) /\
  (forall r,
      max_depth = 0%Z -> (0 < max_pages)%Z ->
      _is_allowed seed_url = true -> download seed_url = Some r ->
      crawl _is_allowed download _extract_links max_depth max_pages seed_url
      = [mkCrawledPage seed_url (resp_title r) (resp_text r) (resp_html r)]).
Proof.
  unfold crawl, crawl_from, exit_state, budget_of.
  cbn [queue visited pages List.length Z.of_nat].
  rewrite Z.sub_0_r.
  destruct (Z.to_nat max_pages) as [|b] eqn:Hb.
  - split; [reflexivity | intros; lia].
  - rewrite run_scan.
    change (PyStr.mem seed_url []) with false. cbv iota.
    split.
    + intros [H | [H | [H | H]]].
      * lia.
      * apply Z.ltb_lt in H. rewrite H. now rewrite run_empty_queue.
      * rewrite H. cbn [negb].
        destruct (max_depth <? 0)%Z; now rewrite run_empty_queue.
      * unfold _fetch_page. rewrite H.
        destruct (max_depth <? 0)%Z; [now rewrite run_empty_queue|].
        destruct (negb (_is_allowed seed_url)); now rewrite run_empty_queue.
    + intros r Hd Hp Ha Hr.
      unfold _fetch_page. rewrite Ha, Hr, Hd. cbn [Z.ltb Z.compare negb].
      now destruct b.
Qed.

End WithNetwork.

(** *** A small site *)

Definition site_allowed (url : string) : bool :=
  negb (String.eqb url "http://s/private").

Definition site_download (url : string) : option Response :=
  if String.eqb url "http://s/"
  then Some (mkResponse "Home" "Cats and dogs" "home")
  else if String.eqb url "http://s/a"
  then Some (mkResponse "A" "Dogs chase cats" "a")
  else None.

Definition site_links (html base_url : string) : list string :=
  if String.eqb html "home"
  then ["http://s/a"; "http://s/private"; "http://s/missing"; "http://s/"]
  else if String.eqb html "a" then ["http://s/"; "http://s/a"]
  else [].

Example crawl_small_site :
  crawl site_allowed site_download site_links 2 10 "http://s/"
  = [mkCrawledPage "http://s/" "Home" "Cats and dogs" "home";
     mkCrawledPage "http://s/a" "A" "Dogs chase cats" "a"].
Proof. reflexivity. Qed.

Lemma crawl_pages_are_fetched_and_linked_witness :
  let p := mkCrawledPage "http://s/a" "A" "Dogs chase cats" "a" in
  site_allowed (cp_url p) = true /\
  site_download (cp_url p)
  = Some (mkResponse (cp_title p) (cp_text p) (cp_html p)) /\
  (cp_url p = "http://s/" \/
   exists p',
     In p' (crawl site_allowed site_download site_links 2 10 "http://s/") /\
     In (cp_url p) (site_links (cp_html p') (cp_url p'))).
Proof.
  intro p.
  apply (crawl_pages_are_fetched_and_linked
           site_allowed site_download site_links 2 10 "http://s/" p).
  vm_compute. tauto.
Defined.

Lemma crawl_seed_only_cases_witness :
  crawl site_allowed site_download site_links 2 10 "http://s/private" = [] /\
  crawl site_allowed site_download site_links 0 10 "http://s/"
  = [mkCrawledPage "http://s/" "Home" "Cats and dogs" "home"].
Proof.
  split.
  - apply (proj1 (crawl_seed_only_cases
                    site_allowed site_download site_links 2 10
                    "http://s/private")).
    right; right; left. reflexivity.
  - apply (proj2 (crawl_seed_only_cases
                    site_allowed site_download site_links 0 10 "http://s/")
             (mkResponse "Home" "Cats and dogs" "home")); reflexivity.
Defined.

End CrawlerFacts.
